(** * Feeby: a shallow embedding of the sketch-component library

    The development follows the TypeScript sources:
    - [utils/styles]            : [cn], [colorUtils.darken], [colorUtils.lighten]
    - [context/ThemeContext]    : [FeebyThemeProvider], [useFeebyTheme]
    - the seed timers of the components that hold a jitter seed
    - [components/DoodlePad]    : the stroke list and its mouse handlers
    - [components/JourneyLine]  : the bezier connector path
    - [components/RippedBanner] : the torn-edge outline
    - [components/SketchyRectangle] : the rounded-rectangle path

    Modelling conventions.
    - JavaScript strings are [string]s of 8-bit characters.
    - SVG path strings are kept as lists of path commands, one constructor per
      command letter, with the numbers that the template literal interpolates
      as arguments; the decimal printing of numbers is not modelled.
    - A finite JavaScript number is a rational [Q]. Where a statement depends
      on it, the arithmetic is that of IEEE 754 binary64: every operation
      returns the exact result rounded to the nearest double, ties to even
      ([Float64]). This is so in the colour utilities and in the paths of
      JourneyLine and RippedBanner. The other geometry (sizes, radii, seeds)
      is computed over the rationals without rounding.
    - The colour utilities take a JavaScript [number] as percentage; there the
      special values NaN and the infinities are modelled as well ([JS.num]).
    - [Math.random] is a supply of draws that is threaded through the code in
      the order in which the source calls it. *)

From Stdlib Require Import QArith Qpower Qround Qabs Qminmax Ascii String.
From stdpp Require Import gmap strings list.
From Stdlib Require Import Lia Lqa.

Local Open Scope Z_scope.

(** ** Binary64 arithmetic *)

Module Float64.
Local Open Scope Q_scope.

(** A finite double is a rational [m * 2 ^ e] with [|m| < 2 ^ 53] and
    [-1074 <= e]. The operations [+ - * /] of JavaScript return the exact
    result rounded to the nearest double, ties going to the even [m]. The
    rounding is [fl]; its exponent is unbounded above, and the overflow to an
    infinity is decided where the special values are ([JS.round64]). *)

(** The exponent [e] with [2 ^ e <= n / d < 2 ^ (e + 1)]. *)
Definition binade (n d : positive) : Z :=
  let k := (Z.log2 (Zpos n) - Z.log2 (Zpos d))%Z in
  if Qle_bool (2 ^ k) (Zpos n # d) then k else (k - 1)%Z.

(** The exponent of the last of the 53 bits of a value in binade [e];
    below [2 ^ -1022] the values are subnormal and the exponent stays. *)
Definition quantum (e : Z) : Z := Z.max (e - 52) (-1074).

(** The nearest integer, ties to even. *)
Definition round_half_even (q : Q) : Z :=
  let f := Qfloor q in
  match Qcompare (q - inject_Z f) (1 # 2) with
  | Lt => f
  | Gt => (f + 1)%Z
  | Eq => if Z.even f then f else (f + 1)%Z
  end.

Definition fl_pos (n d : positive) : Q :=
  let ex := quantum (binade n d) in
  Qred (inject_Z (round_half_even ((Zpos n # d) / 2 ^ ex)) * 2 ^ ex).

(** The double nearest to a rational. *)
Definition fl (q : Q) : Q :=
  match Qnum (Qred q) with
  | Z0 => 0
  | Zpos n => fl_pos n (Qden (Qred q))
  | Zneg n => - fl_pos n (Qden (Qred q))
  end.

(** The largest finite double, [(2 ^ 53 - 1) * 2 ^ 971]. *)
Definition max_double : Q := inject_Z ((2 ^ 53 - 1) * 2 ^ 971).

(** The operations on finite doubles, where no result overflows. *)
Definition fadd (a b : Q) : Q := fl (a + b).
Definition fsub (a b : Q) : Q := fl (a - b).
Definition fmul (a b : Q) : Q := fl (a * b).
Definition fdiv (a b : Q) : Q := fl (a / b).

(** The relative error of one rounding, [2 ^ -53], and the absolute error
    among the subnormal values, [2 ^ -1075]. *)
Definition unit_roundoff : Q := 2 ^ (-53).
Definition subnormal_error : Q := 2 ^ (-1075).

End Float64.

(** ** JavaScript values used by the utilities *)

Module JS.

(** A JavaScript number: a finite value, an infinity or NaN. A finite value
    is the rational that the double stands for; the negative zero is
    identified with zero. *)
Inductive num : Type :=
| Fin (q : Q)
| PInf
| NInf
| NaN.

Definition of_Z (z : Z) : num := Fin (inject_Z z).

Definition opp (a : num) : num :=
  match a with
  | Fin q => Fin (Qopp q)
  | PInf => NInf
  | NInf => PInf
  | NaN => NaN
  end.

(** The result of an operation whose exact value is [q]: the nearest
    double, or an infinity when that is beyond the largest one. *)
Definition round64 (q : Q) : num :=
  let r := Float64.fl q in
  if Qle_bool (Qabs r) Float64.max_double then Fin r
  else if Qle_bool 0 r then PInf else NInf.

Definition add (a b : num) : num :=
  match a, b with
  | NaN, _ | _, NaN => NaN
  | Fin x, Fin y => round64 (Qplus x y)
  | PInf, NInf | NInf, PInf => NaN
  | PInf, _ | _, PInf => PInf
  | NInf, _ | _, NInf => NInf
  end.

Definition sub (a b : num) : num := add a (opp b).

(** The sign of a finite value decides the product with an infinity. *)
Definition scale_inf (q : Q) (pos : bool) : num :=
  match Qcompare q 0 with
  | Eq => NaN
  | Gt => if pos then PInf else NInf
  | Lt => if pos then NInf else PInf
  end.

Definition mul (a b : num) : num :=
  match a, b with
  | NaN, _ | _, NaN => NaN
  | Fin x, Fin y => round64 (Qmult x y)
  | Fin x, PInf | PInf, Fin x => scale_inf x true
  | Fin x, NInf | NInf, Fin x => scale_inf x false
  | PInf, PInf | NInf, NInf => PInf
  | PInf, NInf | NInf, PInf => NInf
  end.

(** Division; a zero divisor is the positive zero. *)
Definition div (a b : num) : num :=
  match a, b with
  | NaN, _ | _, NaN => NaN
  | Fin x, Fin y =>
      match Qcompare y 0 with
      | Eq => scale_inf x true
      | _ => round64 (Qdiv x y)
      end
  | Fin _, _ => Fin 0
  | PInf, Fin y => if Qle_bool 0 y then PInf else NInf
  | NInf, Fin y => if Qle_bool 0 y then NInf else PInf
  | _, _ => NaN
  end.

(** [Math.floor] *)
Definition Math_floor (a : num) : num :=
  match a with
  | Fin q => of_Z (Qfloor q)
  | other => other
  end.

(** [Math.max(a, b)] and [Math.min(a, b)]: NaN if an argument is NaN. *)
Definition Math_max (a b : num) : num :=
  match a, b with
  | NaN, _ | _, NaN => NaN
  | PInf, _ | _, PInf => PInf
  | NInf, x | x, NInf => x
  | Fin x, Fin y => if Qle_bool x y then Fin y else Fin x
  end.

Definition Math_min (a b : num) : num :=
  match a, b with
  | NaN, _ | _, NaN => NaN
  | NInf, _ | _, NInf => NInf
  | PInf, x | x, PInf => x
  | Fin x, Fin y => if Qle_bool x y then Fin x else Fin y
  end.

(** *** Strings *)

Definition chars (s : string) : list ascii := list_ascii_of_string s.
Definition str (l : list ascii) : string := string_of_list_ascii l.

(** The digit of a value below 16, in lower case. *)
Definition hex_digit (d : Z) : ascii :=
  match d with
  | 0 => "0" | 1 => "1" | 2 => "2" | 3 => "3" | 4 => "4"
  | 5 => "5" | 6 => "6" | 7 => "7" | 8 => "8" | 9 => "9"
  | 10 => "a" | 11 => "b" | 12 => "c" | 13 => "d" | 14 => "e"
  | _ => "f"
  end%char.

(** The digits of a non-negative integer in radix 16, most significant
    first; the fuel is the bit length, which bounds the digit count. *)
Fixpoint hex_digits (fuel : nat) (z : Z) (acc : list ascii) : list ascii :=
  match fuel with
  | O => acc
  | S fuel' =>
      let acc' := hex_digit (z mod 16) :: acc in
      if z / 16 =? 0 then acc' else hex_digits fuel' (z / 16) acc'
  end.

Definition hex_of_nonneg (z : Z) : list ascii :=
  hex_digits (S (Z.to_nat (Z.log2 z))) z [].

(** The integer part of a rational, rounding towards zero. *)
Definition Qtrunc (q : Q) : Z := Z.quot (Qnum q) (Zpos (Qden q)).

(** [Number.prototype.toString(16)]. ECMAScript leaves the digits after the
    radix point of a non-integer to the implementation: only the integer
    part is produced here (the colour code applies it after [Math.floor]). *)
Definition toString16 (a : num) : string :=
  match a with
  | NaN => "NaN"
  | PInf => "Infinity"
  | NInf => "-Infinity"
  | Fin q =>
      let z := Qtrunc q in
      if z <? 0 then str ("-"%char :: hex_of_nonneg (- z))
      else str (hex_of_nonneg z)
  end.

(** [s.slice(-2)]: the last two characters (all of [s] when it is shorter). *)
Definition slice_last2 (s : string) : string :=
  let l := chars s in str (drop (length l - 2)%nat l).

(** [s.substring(a, b)] for [a <= b]. *)
Definition substring (a b : nat) (s : string) : string :=
  str (take (b - a)%nat (drop a (chars s))).

(** [hex.replace(/^#/, '')]: one leading number sign is removed. *)
Definition strip_hash (s : string) : string :=
  match s with
  | String "#" rest => rest
  | _ => s
  end.

(** [hex.split('').map((char) => char + char).join('')] *)
Definition double_chars (s : string) : string :=
  str (flat_map (fun c => [c; c]) (chars s)).

(** The value of a digit of radix 16, in either case. *)
Definition hex_value (c : ascii) : option Z :=
  let n := Z.of_N (N_of_ascii c) in
  if (48 <=? n) && (n <=? 57) then Some (n - 48)
  else if (97 <=? n) && (n <=? 102) then Some (n - 87)
  else if (65 <=? n) && (n <=? 70) then Some (n - 55)
  else None.

(** White space that [parseInt] skips, among the 8-bit characters. *)
Definition is_white_space (c : ascii) : bool :=
  let n := Z.of_N (N_of_ascii c) in
  ((9 <=? n) && (n <=? 13)) || (n =? 32) || (n =? 160).

Fixpoint skip_white_space (l : list ascii) : list ascii :=
  match l with
  | c :: rest => if is_white_space c then skip_white_space rest else l
  | [] => []
  end.

(** The value of the longest prefix of radix-16 digits, with its length. *)
Fixpoint hex_prefix (l : list ascii) (acc : Z) (count : nat) : Z * nat :=
  match l with
  | c :: rest =>
      match hex_value c with
      | Some d => hex_prefix rest (16 * acc + d) (S count)
      | None => (acc, count)
      end
  | [] => (acc, count)
  end.

(** [parseInt(s, 16)]: leading white space, a sign and a [0x] prefix are
    accepted; no digit gives NaN. *)
Definition parseInt16 (s : string) : num :=
  let l := skip_white_space (chars s) in
  let '(negative, l) :=
    match l with
    | "-"%char :: rest => (true, rest)
    | "+"%char :: rest => (false, rest)
    | _ => (false, l)
    end in
  let l :=
    match l with
    | "0"%char :: "x"%char :: rest => rest
    | "0"%char :: "X"%char :: rest => rest
    | _ => l
    end in
  match hex_prefix l 0 0%nat with
  | (_, O) => NaN
  | (v, _) => of_Z (if negative then - v else v)
  end.

End JS.

(** ** utils/styles *)

Module Styles.
Import JS.

(** An argument of [cn]: [string | undefined | false | null]. *)
Inductive ClassValue : Type :=
| CStr (s : string)
| CUndefined
| CFalse
| CNull.

(** [Boolean(v)]: only a non-empty string is truthy. *)
Definition Boolean (v : ClassValue) : bool :=
  match v with
  | CStr s => negb (String.eqb s "")
  | _ => false
  end.

(** The string that [Array.prototype.join] takes for an element:
    [undefined] and [null] give the empty string. *)
Definition join_elem (v : ClassValue) : string :=
  match v with
  | CStr s => s
  | CFalse => "false"
  | CUndefined | CNull => ""
  end.

(** [arr.join(sep)] *)
Fixpoint join (sep : string) (arr : list ClassValue) : string :=
  match arr with
  | [] => ""
  | [v] => join_elem v
  | v :: rest => join_elem v +:+ sep +:+ join sep rest
  end.

(** [classes.filter(Boolean).join(' ')] *)
Definition cn (classes : list ClassValue) : string :=
  join " " (List.filter Boolean classes).

(** [toHex = (c) => ('0' + c.toString(16)).slice(-2)] *)
Definition toHex (c : num) : string :=
  slice_last2 ("0" +:+ toString16 c).

(** [colorUtils.darken] *)
Definition darken (hex : string) (percent : num) : string :=
  let hex := strip_hash hex in
  let hex := if Nat.eqb (String.length hex) 3 then double_chars hex else hex in
  let r := parseInt16 (substring 0 2 hex) in
  let g := parseInt16 (substring 2 4 hex) in
  let b := parseInt16 (substring 4 6 hex) in
  let factor := sub (of_Z 1) (div percent (of_Z 100)) in
  let r := Math_min (of_Z 255) (Math_max (of_Z 0) (Math_floor (mul r factor))) in
  let g := Math_min (of_Z 255) (Math_max (of_Z 0) (Math_floor (mul g factor))) in
  let b := Math_min (of_Z 255) (Math_max (of_Z 0) (Math_floor (mul b factor))) in
  "#" +:+ toHex r +:+ toHex g +:+ toHex b.

(** [colorUtils.lighten] *)
Definition lighten (hex : string) (percent : num) : string :=
  let hex := strip_hash hex in
  let hex := if Nat.eqb (String.length hex) 3 then double_chars hex else hex in
  let r := parseInt16 (substring 0 2 hex) in
  let g := parseInt16 (substring 2 4 hex) in
  let b := parseInt16 (substring 4 6 hex) in
  let factor := add (of_Z 1) (div percent (of_Z 100)) in
  let r := Math_min (of_Z 255) (Math_max (of_Z 0) (Math_floor (mul r factor))) in
  let g := Math_min (of_Z 255) (Math_max (of_Z 0) (Math_floor (mul g factor))) in
  let b := Math_min (of_Z 255) (Math_max (of_Z 0) (Math_floor (mul b factor))) in
  "#" +:+ toHex r +:+ toHex g +:+ toHex b.

(** The two functions differ in the factor only; their common shape. *)
Definition normalize_hex (hex : string) : string :=
  let hex := strip_hash hex in
  if Nat.eqb (String.length hex) 3 then double_chars hex else hex.

Definition clamp_channel (c factor : num) : num :=
  Math_min (of_Z 255) (Math_max (of_Z 0) (Math_floor (mul c factor))).

Definition scale_color (hex : string) (factor : num) : string :=
  "#" +:+ toHex (clamp_channel (parseInt16 (substring 0 2 hex)) factor)
      +:+ toHex (clamp_channel (parseInt16 (substring 2 4 hex)) factor)
      +:+ toHex (clamp_channel (parseInt16 (substring 4 6 hex)) factor).

End Styles.

(** ** context/ThemeContext *)

Module ThemeContext.

(** [type Theme = 'light' | 'dark'] *)
Inductive Theme : Type := light | dark.

(** The string that a theme is at run time. *)
Definition theme_string (t : Theme) : string :=
  match t with
  | light => "light"
  | dark => "dark"
  end.

(** What the provider works on: [localStorage] when [window] is defined
    ([None] when rendering without a browser) and the state cell of
    [useState<Theme>]. *)
Record World : Type := {
  localStorage : option (gmap string string);
  themeState : Theme;
}.

(** [setThemeState(t)] *)
Definition setThemeState (t : Theme) (w : World) : World :=
  {| localStorage := localStorage w; themeState := t |}.

(** [localStorage.setItem(key, value)], guarded by
    [typeof window !== 'undefined']. *)
Definition setItem (key value : string) (w : World) : World :=
  {| localStorage := (fun st => <[key := value]> st) <$> localStorage w;
     themeState := themeState w |}.

(** [interface ThemeContextType]; the two functions act on the world. *)
Record ThemeContextType : Type := {
  theme : Theme;
  setTheme : Theme -> World -> World;
  toggleTheme : World -> World;
}.

(** [const setTheme = (newTheme) => { setThemeState(newTheme); ... }] *)
Definition provider_setTheme (storageKey : string) (newTheme : Theme)
    (w : World) : World :=
  setItem storageKey (theme_string newTheme) (setThemeState newTheme w).

(** [const toggleTheme = () => setTheme(theme === 'light' ? 'dark' : 'light')].
    [theme] is the value of the render that created the closure. *)
Definition provider_toggleTheme (storageKey : string) (theme : Theme)
    (w : World) : World :=
  provider_setTheme storageKey
    (match theme with light => dark | dark => light end) w.

(** The context value that one render of the provider passes down. *)
Definition render (storageKey : string) (w : World) : ThemeContextType :=
  {| theme := themeState w;
     setTheme := provider_setTheme storageKey;
     toggleTheme := provider_toggleTheme storageKey (themeState w) |}.

(** The effect that loads the theme from [localStorage]. *)
Definition load_effect (storageKey : string) (w : World) : World :=
  match localStorage w with
  | Some st =>
      match st !! storageKey with
      | Some stored =>
          if String.eqb stored "light" then setThemeState light w
          else if String.eqb stored "dark" then setThemeState dark w
          else w
      | None => w
      end
  | None => w
  end.

(** Mounting: [useState<Theme>(defaultTheme)], then the effect. *)
Definition mount (defaultTheme : Theme) (storageKey : string)
    (storage : option (gmap string string)) : World :=
  load_effect storageKey
    {| localStorage := storage; themeState := defaultTheme |}.

(** [useFeebyTheme], given what [useContext(ThemeContext)] returns
    ([None] is [undefined]: no provider above the caller). *)
Definition useFeebyTheme (context : option ThemeContextType)
    : ThemeContextType :=
  match context with
  | None =>
      {| theme := light;
         setTheme := fun _ w => w;
         toggleTheme := fun w => w |}
  | Some c => c
  end.

(** The mirror holds the string of the theme that is in the state cell. *)
Definition in_sync (storageKey : string) (w : World) : Prop :=
  exists st, localStorage w = Some st
             /\ st !! storageKey = Some (theme_string (themeState w)).

End ThemeContext.

(** ** The seed timers *)

Module Seed.

(** The components with a [seed] state. *)
Inductive Component : Type :=
| Tape
| SketchyRectangle
| StickyTape
| StickyNote
| BinderPaper
| ThumbTack
| PaperAirplane
| BulletinBoard
| FoldedCorner
| PinnedNote
| RippedBanner.

(** The default of the [isBouncy] prop; [None] when the props have no
    such member. *)
Definition isBouncy_default (c : Component) : option bool :=
  match c with
  | Tape | SketchyRectangle | StickyTape | StickyNote
  | ThumbTack | FoldedCorner | RippedBanner => Some false
  | BinderPaper | PaperAirplane | BulletinBoard => Some true
  | PinnedNote => None
  end.

(** The value of [isBouncy] in the component body, for a prop that the
    caller passed ([Some b]) or omitted ([None]). *)
Definition isBouncy (c : Component) (prop : option bool) : option bool :=
  match isBouncy_default c with
  | Some d => Some (default d prop)
  | None => None
  end.

(** The state of [useState] and the interval that the effect holds, with
    its period in milliseconds. The seed counts in exact arithmetic. *)
Record State : Type := {
  seed : Q;
  timer : option Z;
}.

(** [useState(0)], or [useState(Math.random())] in RippedBanner. *)
Definition initial_seed (c : Component) (draw : Q) : Q :=
  match c with
  | RippedBanner => draw
  | _ => 0%Q
  end.

(** The interval that the seed effect leaves running.
    - PinnedNote: [useEffect(() => { setInterval(..., 150) ... }, [])].
    - RippedBanner: [const [seed] = useState(...)], no effect on it.
    - the others: [if (isBouncy) { setInterval(..., 150) ... }]. *)
Definition seed_effect (c : Component) (isBouncy : option bool)
    : option Z :=
  match c with
  | PinnedNote => Some 150
  | RippedBanner => None
  | _ =>
      match isBouncy with
      | Some true => Some 150
      | _ => None
      end
  end.

Definition mount (c : Component) (prop : option bool) (draw : Q) : State :=
  {| seed := initial_seed c draw;
     timer := seed_effect c (isBouncy c prop) |}.

(** What can happen to a mounted component: its interval fires, or it is
    rendered again with an [isBouncy] prop. *)
Inductive Event : Type :=
| Tick
| Props (prop : option bool).

(** One event; [None] when it cannot happen (no interval is running).
    A tick runs [setSeed((prevSeed) => prevSeed + 1)]; new props run the
    cleanup [clearInterval] and the effect again (dependency [isBouncy]). *)
Definition step (c : Component) (s : State) (e : Event) : option State :=
  match e with
  | Tick =>
      match timer s with
      | Some _ => Some {| seed := (seed s + 1)%Q; timer := timer s |}
      | None => None
      end
  | Props prop =>
      Some {| seed := seed s; timer := seed_effect c (isBouncy c prop) |}
  end.

Fixpoint run (c : Component) (s : State) (es : list Event) : option State :=
  match es with
  | [] => Some s
  | e :: es' =>
      match step c s e with
      | Some s' => run c s' es'
      | None => None
      end
  end.


End Seed.

(** ** components/DoodlePad *)

Module DoodlePad.

Inductive Mode : Type := pen | eraser.

(** [interface Stroke] *)
Record Stroke : Type := {
  points : list (Q * Q);
  mode : Mode;
}.

(** The three state cells of the component that the handlers touch. *)
Record State : Type := {
  isDrawing : bool;
  strokes : list Stroke;
  tool : Mode;
}.

(** [useState(false)], [useState<Stroke[]>([])], [useState('pen')] *)
Definition initial : State :=
  {| isDrawing := false; strokes := []; tool := pen |}.

(** [handleMouseDown], with the event's [offsetX] and [offsetY]. *)
Definition handleMouseDown (pos : Q * Q) (s : State) : State :=
  let newStroke := {| points := [pos]; mode := tool s |} in
  {| isDrawing := true;
     strokes := strokes s ++ [newStroke];
     tool := tool s |}.

(** [currentStroke.points.push(pos)] on the last element of the array.
    [None] is the TypeError of reading [points] of [undefined], which
    is what [newStrokes[newStrokes.length - 1]] is for an empty array.
    The push is in place, on the stroke object that the copied array shares
    with the previous one; the state cell is the one holder that is kept
    here, so the update of its last element is all that is seen. *)
Definition push_to_last (pos : Q * Q) (prevStrokes : list Stroke)
    : option (list Stroke) :=
  match last prevStrokes with
  | None => None
  | Some currentStroke =>
      Some (<[ (length prevStrokes - 1)%nat :=
               {| points := points currentStroke ++ [pos];
                  mode := mode currentStroke |} ]> prevStrokes)
  end.

(** [handleMouseMove] *)
Definition handleMouseMove (pos : Q * Q) (s : State) : option State :=
  if negb (isDrawing s) then Some s
  else
    match push_to_last pos (strokes s) with
    | Some newStrokes =>
        Some {| isDrawing := isDrawing s;
                strokes := newStrokes;
                tool := tool s |}
    | None => None
    end.

(** [handleMouseUp] and [handleMouseLeave] *)
Definition handleMouseUp (s : State) : State :=
  {| isDrawing := false; strokes := strokes s; tool := tool s |}.

Definition handleMouseLeave (s : State) : State :=
  {| isDrawing := false; strokes := strokes s; tool := tool s |}.

(** [handleClear] *)
Definition handleClear (s : State) : State :=
  {| isDrawing := isDrawing s; strokes := []; tool := tool s |}.

(** The tool buttons: [setMode('pen')], [setMode('eraser')]. *)
Definition setMode (m : Mode) (s : State) : State :=
  {| isDrawing := isDrawing s; strokes := strokes s; tool := m |}.

Inductive Event : Type :=
| MouseDown (pos : Q * Q)
| MouseMove (pos : Q * Q)
| MouseUp
| MouseLeave
| Clear
| SetMode (m : Mode).

Definition handle (e : Event) (s : State) : option State :=
  match e with
  | MouseDown pos => Some (handleMouseDown pos s)
  | MouseMove pos => handleMouseMove pos s
  | MouseUp => Some (handleMouseUp s)
  | MouseLeave => Some (handleMouseLeave s)
  | Clear => Some (handleClear s)
  | SetMode m => Some (setMode m s)
  end.

Fixpoint run (es : list Event) (s : State) : option State :=
  match es with
  | [] => Some s
  | e :: es' =>
      match handle e s with
      | Some s' => run es' s'
      | None => None
      end
  end.

(** The invariants in question. *)
Definition strokes_well_formed (s : State) : Prop :=
  Forall (fun st => points st <> []) (strokes s).

Definition drawing_has_stroke (s : State) : Prop :=
  isDrawing s = true -> strokes s <> [].

End DoodlePad.

(** ** Drawing with the rough renderer *)

Module Rough.

(** The commands of the SVG paths that the components build. *)
Inductive PathCmd : Type :=
| M (x y : Q)
| L (x y : Q)
| C (x1 y1 x2 y2 x y : Q)
| A (rx ry angle : Q) (large sweep : bool) (x y : Q)
| ClosePath.

(** The options that the components pass to [rc.path]. *)
Record Options : Type := {
  stroke : string;
  strokeWidth : Q;
  roughness : Q;
  fill : option string;
  fillStyle : option string;
  strokeLineDash : list Q;
}.

(** The node that [rc.path(path, options)] returns. *)
Inductive Node : Type :=
| PathNode (path : list PathCmd) (options : Options).

(** What an effect leaves behind: the children of the [svg] element and
    the primitives that were handed to the renderer. *)
Record Drawn : Type := {
  children : list Node;
  rendered : list Node;
}.

(** [Math.random]: the draws, numbered in the order of the calls. *)
Definition Random : Type := nat -> Q.

End Rough.

(** ** components/JourneyLine *)

Module JourneyLine.
Import Rough ThemeContext Float64.
Local Open Scope Q_scope.

(** [type Point = { x: number; y: number }] *)
Record Point : Type := { x : Q; y : Q }.

Section Path.
Variable random : Random.

(** [i % 2 === 0 ? 1 : -1] *)
Definition direction (i : nat) : Q :=
  if Nat.eqb (i mod 2) 0 then 1 else -1.

(** [i === 1 ? Math.random() * 100 + 50 : (Math.random() - 0.5) * 200],
    with draw [k]. *)
Definition verticalRandomness (i k : nat) : Q :=
  if Nat.eqb i 1 then fadd (fmul (random k) 100) 50
  else fmul (fsub (random k) (1 # 2)) 200.

(** [direction * (Math.random() * 200 + 150)], with draw [k]. *)
Definition swing (i k : nat) : Q :=
  fmul (direction i) (fadd (fmul (random k) 200) 150).

(** The body of the loop for index [i], from [start = points[i - 1]]
    to [end = points[i]]; [k] numbers the next draw. The operations are
    those of doubles, in the order of the source; coordinates are taken to
    be small enough for no result to overflow. *)
Definition segment (i : nat) (start end_ : Point) (k : nat) : PathCmd :=
  let dx := fsub (x end_) (x start) in
  let dy := fsub (y end_) (y start) in
  let ctrlX1 :=
    fadd (fadd (x start) (fmul dx (1 # 4))) (swing i (k + 1)%nat) in
  let ctrlY1 :=
    fadd (fadd (y start) (fmul dy (1 # 2))) (verticalRandomness i k) in
  let ctrlX2 :=
    fsub (fsub (x end_) (fmul dx (1 # 4))) (swing i (k + 2)%nat) in
  let ctrlY2 :=
    fsub (fsub (y end_) (fmul dy (1 # 2))) (verticalRandomness i k) in
  C ctrlX1 ctrlY1 ctrlX2 ctrlY2 (x end_) (y end_).

(** The loop [for (let i = 1; i < points.length; i++)], entered at
    index [i] with the points from [i] on still to visit. *)
Fixpoint segments (i : nat) (start : Point) (rest : list Point) (k : nat)
    : list PathCmd :=
  match rest with
  | [] => []
  | end_ :: rest' =>
      segment i start end_ k :: segments (S i) end_ rest' (k + 3)%nat
  end.

(** The path of the connector; the caller checks the length. *)
Definition build_path (points : list Point) : list PathCmd :=
  match points with
  | [] => []
  | p0 :: rest => M (x p0) (y p0) :: segments 1 p0 rest 0
  end.

(** The effect. [svgRef] holds the children of the [svg] element, or is
    [None] while the ref is null. *)
Definition effect (svgRef : option (list Node)) (points : list Point)
    (theme : Theme) (strokeWidth roughness : Q) : option Drawn :=
  match svgRef with
  | Some old =>
      if (1 <? length points)%nat then
        let strokeColor :=
          match theme with dark => "white" | light => "black" end in
        let line :=
          PathNode (build_path points)
            {| stroke := strokeColor;
               Rough.strokeWidth := strokeWidth;
               Rough.roughness := roughness;
               fill := None;
               fillStyle := None;
               strokeLineDash := [10; 8] |} in
        Some {| children := [line]; rendered := [line] |}
      else Some {| children := old; rendered := [] |}
  | None => None
  end.
End Path.

(** The point where a path command ends. *)
Definition ends_at (c : PathCmd) (p : Point) : Prop :=
  exists x1 y1 x2 y2, c = C x1 y1 x2 y2 (x p) (y p).

End JourneyLine.

(** ** components/RippedBanner *)

Module RippedBanner.
Import Rough ThemeContext Float64.
Local Open Scope Q_scope.

Definition jaggedness : Q := 8.
Definition segmentCount : nat := 6.

Section Path.
Variable random : Random.

(** [(Math.random() - 0.5) * jaggedness], for draw [k]. *)
Definition jitter (k : nat) : Q :=
  fmul (fsub (random k) (1 # 2)) jaggedness.

(** One vertex of [jaggedLine]: step [i] of the loop, draws [k], [k+1].
    The operations are those of doubles, in the order of the source; the
    sizes are taken to be such that no result overflows ([finite_size]). *)
Definition jagged_vertex (x1 y1 dx dy : Q) (i k : nat) : PathCmd :=
  let px := fadd x1 (fmul dx (inject_Z (Z.of_nat i))) in
  let py := fadd y1 (fmul dy (inject_Z (Z.of_nat i))) in
  L (fadd px (jitter k)) (fadd py (jitter (k + 1)%nat)).

(** The loop [for (let i = 1; i <= segmentCount; i++)] with [n] rounds
    left. *)
Fixpoint jagged_loop (x1 y1 dx dy : Q) (i n k : nat) : list PathCmd :=
  match n with
  | O => []
  | S n' =>
      jagged_vertex x1 y1 dx dy i k
        :: jagged_loop x1 y1 dx dy (S i) n' (k + 2)%nat
  end.

(** [jaggedLine(x1, y1, x2, y2)], starting at draw [k]. *)
Definition jaggedLine (x1 y1 x2 y2 : Q) (k : nat) : list PathCmd :=
  let dx := fdiv (fsub x2 x1) (inject_Z (Z.of_nat segmentCount)) in
  let dy := fdiv (fsub y2 y1) (inject_Z (Z.of_nat segmentCount)) in
  jagged_loop x1 y1 dx dy 1 segmentCount k.

(** The outline: the template literal draws for [M] first, then runs
    the four sides, each of which takes twelve draws. *)
Definition build_path (width height : Q) : list PathCmd :=
  M (jitter 0) (jitter 1)
    :: jaggedLine 0 0 width 0 2
    ++ jaggedLine width 0 width height 14
    ++ jaggedLine width height 0 height 26
    ++ jaggedLine 0 height 0 0 38.

Definition effect (svgRef : option (list Node)) (width height : Q)
    (color : string) (theme : Theme) : option Drawn :=
  match svgRef with
  | Some _ =>
      let strokeColor :=
        match theme with dark => "#e5e7eb" | light => "#1f2937" end in
      let banner :=
        PathNode (build_path width height)
          {| stroke := strokeColor;
             strokeWidth := 3 # 2;
             roughness := 5 # 2;
             fill := Some color;
             fillStyle := Some "solid";
             strokeLineDash := [] |} in
      Some {| children := [banner]; rendered := [banner] |}
  | None => None
  end.
End Path.

(** The points of the exact [width] by [height] rectangle that the
    vertices are drawn around: the corner where the outline starts, then
    six equally spaced points along each side, clockwise, the last one
    of a side being its far corner. These are points of the plane: their
    coordinates are not rounded. *)
Definition side_point (x1 y1 x2 y2 : Q) (i : nat) : Q * Q :=
  let t := inject_Z (Z.of_nat i) / 6 in
  (x1 + (x2 - x1) * t, y1 + (y2 - y1) * t).

Definition side_points (x1 y1 x2 y2 : Q) : list (Q * Q) :=
  map (side_point x1 y1 x2 y2) (seq 1 6).

Definition ideal_points (width height : Q) : list (Q * Q) :=
  (0, 0) :: side_points 0 0 width 0
    ++ side_points width 0 width height
    ++ side_points width height 0 height
    ++ side_points 0 height 0 0.

(** A point within [d] of another, coordinate by coordinate. *)
Definition within (d : Q) (v p : Q * Q) : Prop :=
  Qabs (fst v - fst p) <= d /\ Qabs (snd v - snd p) <= d.

(** The command starts the outline, or draws a line, to a vertex within
    [d] of the point. *)
Definition move_near (d : Q) (c : PathCmd) (p : Q * Q) : Prop :=
  match c with
  | M vx vy => within d (vx, vy) p
  | _ => False
  end.

Definition line_near (d : Q) (c : PathCmd) (p : Q * Q) : Prop :=
  match c with
  | L vx vy => within d (vx, vy) p
  | _ => False
  end.

(** Sizes for which no operation of the outline overflows. *)
Definition finite_size (width height : Q) : Prop :=
  Qabs width <= 2 ^ 1000 /\ Qabs height <= 2 ^ 1000.

(** What the roundings of a side point and of the sum with the jitter can
    add to a distance, for sizes of magnitude [width] and [height]. *)
Definition rounding_slack (width height : Q) : Q :=
  (Qmax (Qabs width) (Qabs height) + 1) / 2 ^ 48.

(** A command whose coordinates are finite doubles in magnitude. *)
Definition finite_vertex (c : PathCmd) : Prop :=
  match c with
  | M vx vy | L vx vy => Qabs vx <= max_double /\ Qabs vy <= max_double
  | _ => False
  end.

End RippedBanner.

(** ** components/SketchyRectangle *)

Module SketchyRectangle.
Import Rough ThemeContext.
Local Open Scope Q_scope.

(** [Math.min(a, b, c)] on finite numbers. *)
Definition Math_min3 (a b c : Q) : Q := Qmin (Qmin a b) c.

(** The radius of the corners. *)
Definition radius (width height borderRadius : Q) : Q :=
  Math_min3 borderRadius (width / 2) (height / 2).

(** The outline, from the template literal of the effect. *)
Definition build_path (width height borderRadius strokeWidth : Q)
    : list PathCmd :=
  let r := radius width height borderRadius in
  let x := strokeWidth / 2 in
  let y := strokeWidth / 2 in
  let w := width - strokeWidth in
  let h := height - strokeWidth in
  [ M (x + r) y;
    L (x + w - r) y;
    A r r 0 false true (x + w) (y + r);
    L (x + w) (y + h - r);
    A r r 0 false true (x + w - r) (y + h);
    L (x + r) (y + h);
    A r r 0 false true x (y + h - r);
    L x (y + r);
    A r r 0 false true (x + r) y;
    ClosePath ].

Definition effect (svgRef : option (list Node))
    (width height borderRadius : Q) (customStrokeWidth : option Q)
    (fill : option string) (theme : Theme) : option Drawn :=
  match svgRef with
  | Some _ =>
      let strokeColor :=
        match theme with dark => "white" | light => "black" end in
      let strokeWidth := default 2 customStrokeWidth in
      let shape :=
        PathNode (build_path width height borderRadius strokeWidth)
          {| stroke := strokeColor;
             Rough.strokeWidth := strokeWidth;
             roughness := 2;
             Rough.fill := fill;
             fillStyle := Some "solid";
             strokeLineDash := [] |} in
      Some {| children := [shape]; rendered := [shape] |}
  | None => None
  end.

(** The arcs of a path, as pairs of radii. *)
Definition arc_radii (path : list PathCmd) : list (Q * Q) :=
  flat_map (fun c => match c with A rx ry _ _ _ _ _ => [(rx, ry)] | _ => [] end)
           path.

End SketchyRectangle.

(** ** The statements about the utilities, in the words of the specification *)

Module StylesSpec.
Import JS Styles.

(** The truthy arguments of [cn], in their original order. *)
Fixpoint truthy_arguments (classes : list ClassValue) : list string :=
  match classes with
  | [] => []
  | CStr (String c s) :: rest => String c s :: truthy_arguments rest
  | _ :: rest => truthy_arguments rest
  end.

(** A colour as it is passed in: the digits, after a number sign or not. *)
Definition color_input (hash : bool) (digits : list ascii) : string :=
  if hash then String "#" (str digits) else str digits.

Definition is_hex (c : ascii) : Prop := is_Some (hex_value c).

Definition digit_value (c : ascii) : Z := default 0 (hex_value c).

(** The three channels of three digits (each digit doubled) or of six. *)
Definition channels (digits : list ascii) : option (Z * Z * Z) :=
  match map digit_value digits with
  | [r; g; b] => Some (16 * r + r, 16 * g + g, 16 * b + b)
  | [r1; r2; g1; g2; b1; b2] => Some (16 * r1 + r2, 16 * g1 + g2, 16 * b1 + b2)
  | _ => None
  end.

(** [min(255, max(0, floor(c * factor)))], the product being that of
    two doubles. A product beyond the largest double is an infinity, which
    the clamping takes to 255 or to 0 as it does the product itself. *)
Definition scaled (c : Z) (factor : Q) : Z :=
  Z.min 255 (Z.max 0 (Qfloor (Float64.fmul (inject_Z c) factor))).

(** [1 - p / 100] and [1 + p / 100] in the arithmetic of doubles. *)
Definition darken_factor (p : Q) : Q :=
  Float64.fsub 1 (Float64.fdiv p 100).
Definition lighten_factor (p : Q) : Q :=
  Float64.fadd 1 (Float64.fdiv p 100).

(** The same channel with the arithmetic of the real numbers. *)
Definition scaled_exactly (c : Z) (factor : Q) : Z :=
  Z.min 255 (Z.max 0 (Qfloor (inject_Z c * factor))).

(** A percentage within the range of the finite doubles. *)
Definition finite_percent (p : Q) : Prop :=
  (Qabs p <= Float64.max_double)%Q.

(** Two digits for a channel, and the colour string of three channels. *)
Definition hex2 (z : Z) : string :=
  str [hex_digit (z / 16); hex_digit (z mod 16)].

Definition color_string (r g b : Z) : string :=
  "#" +:+ hex2 r +:+ hex2 g +:+ hex2 b.

Definition is_lower_hex (c : ascii) : bool :=
  let n := Z.of_N (N_of_ascii c) in
  ((48 <=? n) && (n <=? 57)) || ((97 <=? n) && (n <=? 102)).

(** A number sign followed by exactly six lower-case digits of radix 16. *)
Definition well_formed_color (s : string) : bool :=
  match chars s with
  | "#"%char :: ds => Nat.eqb (length ds) 6 && forallb is_lower_hex ds
  | _ => false
  end.

(** The digits that [parseInt] accepts for radix 16, with their values. *)
Definition hex_table : list (ascii * Z) :=
  [("0", 0); ("1", 1); ("2", 2); ("3", 3); ("4", 4); ("5", 5); ("6", 6);
   ("7", 7); ("8", 8); ("9", 9); ("a", 10); ("b", 11); ("c", 12);
   ("d", 13); ("e", 14); ("f", 15); ("A", 10); ("B", 11); ("C", 12);
   ("D", 13); ("E", 14); ("F", 15)]%char.

End StylesSpec.

(** ** utils/styles: style objects *)

Module StyleObjects.

(** The value of a style property: a string or a number. *)
Inductive CSSValue : Type :=
| CssString (s : string)
| CssNumber (q : Q).

(** [CSSProperties]: the own properties of a style object. The order in
    which an object enumerates its properties is not kept. *)
Abbreviation CSSProperties := (gmap string CSSValue).

(** [Boolean(style)] on [CSSProperties | undefined]: an object is truthy. *)
Definition Boolean (style : option CSSProperties) : bool :=
  match style with
  | Some _ => true
  | None => false
  end.

(** [Object.assign(target, ...sources)]: the sources are copied in order,
    a later one overwriting what an earlier one has set; [undefined] is
    skipped. *)
Definition Object_assign (target : CSSProperties)
    (sources : list (option CSSProperties)) : CSSProperties :=
  foldl (fun acc source =>
           match source with
           | Some props => props ∪ acc
           | None => acc
           end)
        target sources.

(** [Object.assign({}, ...styles.filter(Boolean))] *)
Definition mergeStyles (styles : list (option CSSProperties)) : CSSProperties :=
  Object_assign ∅ (List.filter Boolean styles).

(** Three entries of [tw]. *)
Definition tw_flex : CSSProperties := {[ "display" := CssString "flex" ]}.

Definition tw_flexCol : CSSProperties :=
  {[ "display" := CssString "flex"; "flexDirection" := CssString "column" ]}.

Definition tw_p2 : CSSProperties := {[ "padding" := CssString "0.5rem" ]}.

(** The value that the last style with the property gives it. *)
Definition last_defined (k : string) (styles : list (option CSSProperties))
    : option CSSValue :=
  last (omap (fun style : option CSSProperties => style ≫= (.!! k)) styles).

End StyleObjects.

(** ** components/DoodlePad: the drawing effect *)

Module DoodleCanvas.
Import ThemeContext DoodlePad.

(** [ctx.globalCompositeOperation], as far as the effect sets it. *)
Inductive CompositeOp : Type := source_over | destination_out.

(** One call of [rc.linearPath], with the operation in force at the call. *)
Record LinearPath : Type := {
  path_points : list (Q * Q);
  path_stroke : string;
  path_strokeWidth : Q;
  path_roughness : Q;
  path_composite : CompositeOp;
}.

(** The state of the 2D context during the effect, and the calls so far. *)
Record Canvas : Type := {
  composite : CompositeOp;
  drawn : list LinearPath;
}.

(** The body of [strokes.forEach]. *)
Definition draw_stroke (theme : Theme) (cv : Canvas) (st : Stroke) : Canvas :=
  if (1 <? length (points st))%nat then
    let op :=
      match mode st with
      | eraser => destination_out
      | pen => composite cv
      end in
    let call :=
      {| path_points := points st;
         path_stroke := match theme with dark => "#ededed" | light => "#000" end;
         path_strokeWidth := match mode st with pen => 3 | eraser => 20 end;
         path_roughness := 3 # 2;
         path_composite := op |} in
    {| composite := match mode st with eraser => source_over | pen => op end;
       drawn := drawn cv ++ [call] |}
  else cv.

(** The effect: nothing without a canvas, with a width of zero or without
    a context; otherwise the canvas is cleared and the strokes are drawn in
    order. [context] is the operation that the 2D context is in. *)
Definition draw_effect (canvasRef : bool) (size_width : Q)
    (context : option CompositeOp) (theme : Theme) (strokes : list Stroke)
    : option Canvas :=
  if negb canvasRef || Qeq_bool size_width 0 then None
  else
    match context with
    | None => None
    | Some op =>
        Some (foldl (draw_stroke theme) {| composite := op; drawn := [] |}
                    strokes)
    end.

(** The call that a stroke of more than one point gets on a context that is
    in [source-over]. *)
Definition stroke_call (theme : Theme) (st : Stroke) : LinearPath :=
  {| path_points := points st;
     path_stroke := match theme with dark => "#ededed" | light => "#000" end;
     path_strokeWidth := match mode st with pen => 3 | eraser => 20 end;
     path_roughness := 3 # 2;
     path_composite :=
       match mode st with pen => source_over | eraser => destination_out end |}.

Definition has_line (st : Stroke) : bool := (1 <? length (points st))%nat.

(** The number of mouse-downs since the last clear action. *)
Fixpoint downs_since_clear (es : list Event) (count : nat) : nat :=
  match es with
  | [] => count
  | MouseDown _ :: es' => downs_since_clear es' (S count)
  | Clear :: es' => downs_since_clear es' 0
  | _ :: es' => downs_since_clear es' count
  end.

End DoodleCanvas.

(** ** components/Tape *)

Module Tape.
Local Open Scope Q_scope.

(** The corners of the tape polygon. *)
Definition polygon_points (width height : Q) : list (Q * Q) :=
  [ (0, height * (3 # 10));
    (width, 0);
    (width * (7 # 10), height);
    (0, height) ].

End Tape.

(** ** components/TapedBox *)

Module TapedBox.
Import ThemeContext.
Local Open Scope Q_scope.

(** [type Corner] *)
Inductive Corner : Type := topLeft | topRight | bottomLeft | bottomRight.

Definition Corner_eqb (a b : Corner) : bool :=
  match a, b with
  | topLeft, topLeft | topRight, topRight
  | bottomLeft, bottomLeft | bottomRight, bottomRight => true
  | _, _ => false
  end.

(** [tapeCorners.includes(corner)] *)
Definition includes (tapeCorners : list Corner) (corner : Corner) : bool :=
  existsb (Corner_eqb corner) tapeCorners.

(** [getTapeRotation] *)
Definition getTapeRotation (corner : Corner) : Q :=
  match corner with
  | topLeft => -15
  | topRight => 15
  | bottomLeft => 15
  | bottomRight => -15
  end.

(** A [Tape] child: its corner and the props it is given. *)
Record TapeChild : Type := {
  tape_corner : Corner;
  tape_width : Q;
  tape_height : Q;
  tape_rotation : Q;
  tape_isBouncy : option bool;
}.

Definition tape_at (corner : Corner) (isBouncy : option bool) : TapeChild :=
  {| tape_corner := corner;
     tape_width := 50;
     tape_height := 25;
     tape_rotation := getTapeRotation corner;
     tape_isBouncy := isBouncy |}.

(** The four conditional [Tape] children of the returned element, in the
    order of the JSX. *)
Definition tape_children (tapeCorners : list Corner) (isBouncy : option bool)
    : list TapeChild :=
  (if includes tapeCorners topLeft then [tape_at topLeft isBouncy] else [])
  ++ (if includes tapeCorners topRight then [tape_at topRight isBouncy] else [])
  ++ (if includes tapeCorners bottomLeft
      then [tape_at bottomLeft isBouncy] else [])
  ++ (if includes tapeCorners bottomRight
      then [tape_at bottomRight isBouncy] else []).

(** The [SketchyRectangle] child: rendered for a measured size that is
    positive in both directions, with the props it is given. *)
Record RectangleChild : Type := {
  rect_width : Q;
  rect_height : Q;
  rect_isBouncy : option bool;
  rect_borderRadius : option Q;
  rect_fill : string;
}.

Definition rectangle_child (size_width size_height : Q)
    (isBouncy : option bool) (borderRadius : option Q) (theme : Theme)
    : option RectangleChild :=
  if Qlt_le_dec 0 size_width then
    if Qlt_le_dec 0 size_height then
      Some {| rect_width := size_width;
              rect_height := size_height;
              rect_isBouncy := isBouncy;
              rect_borderRadius := borderRadius;
              rect_fill := match theme with dark => "#0a0a0a" | light => "white" end |}
    else None
  else None.

(** The radius that SketchyRectangle uses for the props of the child;
    [borderRadius = 0] is the default of that component. *)
Definition child_radius (child : RectangleChild) : Q :=
  SketchyRectangle.radius (rect_width child) (rect_height child)
    (default 0 (rect_borderRadius child)).

End TapedBox.

(** ** utils/styles: reading a colour back *)

Module ColorSpec.
Import JS Styles StylesSpec.

(** The channel [i] (0, 1, 2) that [darken] and [lighten] read from a
    colour: [parseInt(hex.substring(2 * i, 2 * i + 2), 16)] after the number
    sign is dropped and three characters are doubled. *)
Definition channel_of (i : nat) (color : string) : num :=
  parseInt16 (substring (2 * i) (2 * i + 2) (normalize_hex color)).

(** The two characters that a channel is printed with. *)
Definition channel_text (s : string) : Prop :=
  s = "aN" \/ exists z : Z, 0 <= z <= 255 /\ s = hex2 z.

(** A well-formed input: three or six digits of radix 16. *)
Definition hex_digits_input (digits : list ascii) : Prop :=
  Forall is_hex digits /\ (length digits = 3 \/ length digits = 6)%nat.

End ColorSpec.

(** ** The seed timers: what a run is made of *)

Module SeedSpec.
Import Seed.

(** The number of ticks among the events. *)
Fixpoint ticks (es : list Event) : Z :=
  match es with
  | [] => 0
  | Tick :: es' => 1 + ticks es'
  | Props _ :: es' => ticks es'
  end.

(** The [isBouncy] prop of the last render. *)
Fixpoint last_prop (prop : option bool) (es : list Event) : option bool :=
  match es with
  | [] => prop
  | Tick :: es' => last_prop prop es'
  | Props prop' :: es' => last_prop prop' es'
  end.

End SeedSpec.

(** ** Paths: where a command ends *)

Module PathSpec.
Import Rough.

(** The point that a path command draws to. *)
Definition endpoint (c : PathCmd) : option (Q * Q) :=
  match c with
  | M x y | L x y | C _ _ _ _ x y | A _ _ _ _ _ x y => Some (x, y)
  | ClosePath => None
  end.

Definition vertices (path : list PathCmd) : list (Q * Q) := omap endpoint path.

(** A point of the [width] by [height] viewport of an [svg] element. *)
Definition in_viewport (width height : Q) (p : Q * Q) : Prop :=
  (0 <= fst p <= width /\ 0 <= snd p <= height)%Q.

End PathSpec.

(** ** components/StickyNote *)

Module StickyNote.
Import Rough.
Local Open Scope Q_scope.

(** The [foldedCorner] prop. *)
Inductive FoldedCorner : Type :=
| topLeft | topRight | bottomLeft | bottomRight | none.

(** [setActualFoldSize(foldSize ?? Math.random() * 20 + 25)] *)
Definition fold_size_effect (foldSize : option Q) (random : Q) : Q :=
  match foldSize with
  | Some size => size
  | None => random * 20 + 25
  end.

Definition borderRadius : Q := 15.
Definition strokeWidth : Q := 2.

(** [mainPath], for the fold [s = actualFoldSize]. *)
Definition mainPath (foldedCorner : FoldedCorner) (width height s : Q)
    : list PathCmd :=
  let r := borderRadius in
  let x := strokeWidth / 2 in
  let y := strokeWidth / 2 in
  let w := width - strokeWidth in
  let h := height - strokeWidth in
  match foldedCorner with
  | topLeft =>
      [ M (x + s) y; L (x + w - r) y; A r r 0 false true (x + w) (y + r);
        L (x + w) (y + h - r); A r r 0 false true (x + w - r) (y + h);
        L (x + r) (y + h); A r r 0 false true x (y + h - r);
        L x (y + s); ClosePath ]
  | topRight =>
      [ M (x + r) y; L (x + w - s) y; L (x + w) (y + s);
        L (x + w) (y + h - r); A r r 0 false true (x + w - r) (y + h);
        L (x + r) (y + h); A r r 0 false true x (y + h - r);
        L x (y + r); A r r 0 false true (x + r) y; ClosePath ]
  | bottomLeft =>
      [ M (x + r) y; L (x + w - r) y; A r r 0 false true (x + w) (y + r);
        L (x + w) (y + h - r); A r r 0 false true (x + w - r) (y + h);
        L (x + s) (y + h); L x (y + h - s);
        L x (y + r); A r r 0 false true (x + r) y; ClosePath ]
  | bottomRight =>
      [ M (x + r) y; L (x + w - r) y; A r r 0 false true (x + w) (y + r);
        L (x + w) (y + h - s); L (x + w - s) (y + h);
        L (x + r) (y + h); A r r 0 false true x (y + h - r);
        L x (y + r); A r r 0 false true (x + r) y; ClosePath ]
  | none =>
      [ M (x + r) y; L (x + w - r) y; A r r 0 false true (x + w) (y + r);
        L (x + w) (y + h - r); A r r 0 false true (x + w - r) (y + h);
        L (x + r) (y + h); A r r 0 false true x (y + h - r);
        L x (y + r); A r r 0 false true (x + r) y; ClosePath ]
  end.

(** [foldTrianglePath]; [None] where the switch leaves it undefined. *)
Definition foldTrianglePath (foldedCorner : FoldedCorner) (width height s : Q)
    : option (list PathCmd) :=
  let x := strokeWidth / 2 in
  let y := strokeWidth / 2 in
  let w := width - strokeWidth in
  let h := height - strokeWidth in
  match foldedCorner with
  | topLeft => Some [ M x (y + s); L (x + s) (y + s); L (x + s) y ]
  | topRight => Some [ M (x + w - s) y; L (x + w - s) (y + s); L (x + w) (y + s) ]
  | bottomLeft =>
      Some [ M x (y + h - s); L (x + s) (y + h - s); L (x + s) (y + h) ]
  | bottomRight =>
      Some [ M (x + w) (y + h - s); L (x + w - s) (y + h - s);
             L (x + w - s) (y + h) ]
  | none => None
  end.

(** The props of the [StickyTape] of one skill; [random] is the draw for
    its rotation. *)
Record SkillTape : Type := {
  skill_text : string;
  skill_width : Q;
  skill_height : Q;
  skill_rotation : Q;
}.

Definition skill_tape (width : Q) (skill : string) (random : Q) : SkillTape :=
  let narrow := if Qlt_le_dec width 300 then true else false in
  let len := inject_Z (Z.of_nat (String.length skill)) in
  {| skill_text := skill;
     skill_width := if narrow then len * 6 + 16 else len * 8 + 20;
     skill_height := if narrow then 18 else 22;
     skill_rotation := random * 6 - 3 |}.

(** [skills.map((skill, index) => <StickyTape ... />)], rendered when
    [skills.length > 0]; the draws are taken in the order of the skills. *)
Fixpoint skill_tapes (width : Q) (skills : list string) (random : Random)
    (k : nat) : list SkillTape :=
  match skills with
  | [] => []
  | skill :: rest =>
      skill_tape width skill (random k) :: skill_tapes width rest random (S k)
  end.

End StickyNote.

(** ** components/StickyTape *)

Module StickyTape.
Local Open Scope Q_scope.

Definition tapeColors : list string :=
  [ "rgba(255, 218, 185, 0.8)";
    "rgba(255, 255, 204, 0.8)";
    "rgba(221, 160, 221, 0.8)";
    "rgba(173, 216, 230, 0.8)";
    "rgba(144, 238, 144, 0.8)";
    "rgba(255, 182, 193, 0.8)" ].

(** [array[i]] for an integer [i]: [None] is [undefined]. *)
Definition array_get (array : list string) (i : Z) : option string :=
  if (i <? 0)%Z then None else array !! Z.to_nat i.

(** [color || tapeColors[Math.floor(Math.random() * tapeColors.length)]],
    the initial value of the [tapeColor] state. *)
Definition initial_tapeColor (color : option string) (random : Q)
    : option string :=
  let pick :=
    array_get tapeColors
      (Qfloor (random * inject_Z (Z.of_nat (length tapeColors)))) in
  match color with
  | Some c => if String.eqb c "" then pick else Some c
  | None => pick
  end.

End StickyTape.

(** ** components/SketchySocialIcon *)

Module SketchySocialIcon.
Local Open Scope Q_scope.

(** The options of the [rc.rectangle(0, 0, 24, 24, ...)] call of [draw]. *)
Record PatternFill : Type := {
  fill : string;
  hachureGap : Q;
  hachureAngle : Z;
  roughness : Q;
}.

(** [draw]: nothing while the pattern ref is null or the pattern has no
    owner [svg]; [random] is the draw of this call. *)
Definition draw (patternRef ownerSVGElement : bool) (bgColor : string)
    (random : Q) : option PatternFill :=
  if patternRef && ownerSVGElement then
    Some {| fill := bgColor;
            hachureGap := 7 # 2;
            hachureAngle := Qfloor (random * 90);
            roughness := 5 # 2 |}
  else None.

(** The effect: nothing before the component is mounted; then one [draw],
    and an interval of 200 ms that repeats it when [isBouncy]. *)
Definition effect (mounted : bool) (patternRef ownerSVGElement : bool)
    (bgColor : string) (isBouncy : bool) (random : Q)
    : option PatternFill * option Z :=
  if mounted then
    (draw patternRef ownerSVGElement bgColor random,
     if isBouncy then Some 200%Z else None)
  else (None, None).

End SketchySocialIcon.

(** * Theorems *)

Module Float64Facts.
Import Float64.
Local Open Scope Q_scope.

Example tenth_is_rounded : fl (1 # 10) = 3602879701896397 # 36028797018963968.
Proof. vm_compute. reflexivity. Qed.

Example sum_of_tenths : fadd (fl (1 # 10)) (fl (2 # 10)) > 3 # 10.
Proof. vm_compute. reflexivity. Qed.

Example ties_go_to_even :
  fl (inject_Z (2 ^ 53 + 1)) = inject_Z (2 ^ 53)
  /\ fl (inject_Z (2 ^ 53 + 3)) = inject_Z (2 ^ 53 + 4).
Proof. split; vm_compute; reflexivity. Qed.

Lemma round_half_even_bounds (q : Q) :
  (Qfloor q <= round_half_even q <= Qfloor q + 1)%Z.
Proof.
  unfold round_half_even.
  destruct (Qcompare (q - inject_Z (Qfloor q)) (1 # 2));
    [destruct (Z.even (Qfloor q))| |]; lia.
Qed.

Lemma round_half_even_mono (x y : Q) :
  x <= y -> (round_half_even x <= round_half_even y)%Z.
Proof.
  intros Hxy.
  pose proof (Qfloor_resp_le x y Hxy) as Hf.
  destruct (Z.eq_dec (Qfloor x) (Qfloor y)) as [E|Hne].
  - unfold round_half_even. rewrite E.
    destruct (Qcompare_spec (x - inject_Z (Qfloor y)) (1 # 2)) as [H1|H1|H1];
      destruct (Qcompare_spec (y - inject_Z (Qfloor y)) (1 # 2)) as [H2|H2|H2];
      try (destruct (Z.even (Qfloor y))); try lia; exfalso; lra.
  - pose proof (round_half_even_bounds x). pose proof (round_half_even_bounds y).
    lia.
Qed.

Lemma round_half_even_comp (x y : Q) :
  x == y -> round_half_even x = round_half_even y.
Proof.
  intros H. unfold round_half_even.
  rewrite (Qfloor_comp x y H).
  assert (E : (x - inject_Z (Qfloor y) ?= 1 # 2)
              = (y - inject_Z (Qfloor y) ?= 1 # 2)).
  { apply Qcompare_comp; [rewrite H|]; reflexivity. }
  rewrite E. reflexivity.
Qed.

Lemma round_half_even_Z (z : Z) : round_half_even (inject_Z z) = z.
Proof.
  unfold round_half_even. rewrite Qfloor_Z.
  destruct (Qcompare_spec (inject_Z z - inject_Z z) (1 # 2)) as [H|H|H];
    try reflexivity; exfalso; lra.
Qed.

Lemma pow2_pos (z : Z) : 0 < 2 ^ z.
Proof. apply Qpower_0_lt. reflexivity. Qed.

Lemma pow2_plus (a b : Z) : 2 ^ (a + b) == 2 ^ a * 2 ^ b.
Proof. apply Qpower_plus. discriminate. Qed.

Lemma pow2_Z (z : Z) : (0 <= z)%Z -> 2 ^ z == inject_Z (2 ^ z).
Proof. intros Hz. rewrite Zpower_Qpower by exact Hz. reflexivity. Qed.

Lemma pow2_ge_1 (z : Z) : (0 <= z)%Z -> 1 <= 2 ^ z.
Proof.
  intros Hz. rewrite pow2_Z by exact Hz.
  change 1 with (inject_Z 1). rewrite <- Zle_Qle.
  pose proof (Z.pow_pos_nonneg 2 z ltac:(lia) Hz). lia.
Qed.

Lemma pow2_le (a b : Z) : (a <= b)%Z -> 2 ^ a <= 2 ^ b.
Proof.
  intros Hab. replace b with (a + (b - a))%Z by lia.
  rewrite pow2_plus.
  pose proof (pow2_pos a). pose proof (pow2_ge_1 (b - a) ltac:(lia)). nra.
Qed.

Lemma pow2_lt_inv (a b : Z) : 2 ^ a < 2 ^ b -> (a < b)%Z.
Proof.
  intros H. destruct (Z.lt_ge_cases a b) as [Hlt|Hle]; [exact Hlt|].
  pose proof (pow2_le b a Hle). lra.
Qed.

Lemma pow2_succ (a : Z) : 2 ^ (a + 1) == 2 * 2 ^ a.
Proof. rewrite pow2_plus. change (2 ^ 1) with 2. ring. Qed.

(** The binade of a positive rational. *)
Lemma binade_spec (n d : positive) :
  2 ^ binade n d <= Zpos n # d /\ Zpos n # d < 2 ^ (binade n d + 1).
Proof.
  unfold binade.
  set (a := Z.log2 (Zpos n)). set (b := Z.log2 (Zpos d)).
  assert (Ha0 : (0 <= a)%Z) by apply Z.log2_nonneg.
  assert (Hb0 : (0 <= b)%Z) by apply Z.log2_nonneg.
  destruct (Z.log2_spec (Zpos n) ltac:(lia)) as [Ha1 Ha2]. fold a in Ha1, Ha2.
  destruct (Z.log2_spec (Zpos d) ltac:(lia)) as [Hb1 Hb2]. fold b in Hb1, Hb2.
  rewrite Zle_Qle in Ha1, Hb1. rewrite Zlt_Qlt in Ha2, Hb2.
  rewrite <- pow2_Z in Ha1, Hb1 by lia.
  rewrite <- pow2_Z in Ha2, Hb2 by lia.
  unfold Z.succ in Ha2, Hb2. rewrite pow2_succ in Ha2, Hb2.
  pose proof (pow2_pos a) as PA. pose proof (pow2_pos b) as PB.
  assert (Hq : Zpos n # d == inject_Z (Zpos n) / inject_Z (Zpos d))
    by apply Qmake_Qdiv.
  set (N := inject_Z (Zpos n)) in *. set (D := inject_Z (Zpos d)) in *.
  assert (PD : 0 < D) by lra.
  assert (Hk : 2 ^ (a - b) * 2 ^ b == 2 ^ a).
  { rewrite <- pow2_plus. replace (a - b + b)%Z with a by lia. reflexivity. }
  set (K := 2 ^ (a - b)) in *.
  assert (PK : 0 < K) by apply pow2_pos.
  assert (Up : N / D < 2 * K).
  { apply Qlt_shift_div_r; [exact PD|]. nra. }
  assert (Lo : K < 2 * (N / D)).
  { assert (K * D < 2 * N) by nra.
    assert (E : 2 * (N / D) == (2 * N) / D) by (field; lra).
    rewrite E. apply Qlt_shift_div_l; [exact PD|assumption]. }
  destruct (Qle_bool K (Zpos n # d)) eqn:Eb.
  - apply Qle_bool_iff in Eb. split; [exact Eb|].
    rewrite pow2_succ. fold K. rewrite Hq. exact Up.
  - assert (Hlt : Zpos n # d < K).
    { apply Qnot_le_lt. intros H. apply Qle_bool_iff in H. congruence. }
    replace (a - b - 1 + 1)%Z with (a - b)%Z by lia. fold K.
    split; [|exact Hlt].
    assert (E : K == 2 * 2 ^ (a - b - 1)).
    { unfold K. rewrite <- pow2_succ. replace (a - b - 1 + 1)%Z with (a - b)%Z by lia.
      reflexivity. }
    rewrite Hq. lra.
Qed.

Lemma binade_mono (n d n' d' : positive) :
  Zpos n # d <= Zpos n' # d' -> (binade n d <= binade n' d')%Z.
Proof.
  intros H.
  destruct (binade_spec n d) as [L _]. destruct (binade_spec n' d') as [_ U].
  assert (Hlt : 2 ^ binade n d < 2 ^ (binade n' d' + 1)) by lra.
  apply pow2_lt_inv in Hlt. lia.
Qed.

Lemma fl_pos_eq (n d : positive) :
  fl_pos n d
  == inject_Z (round_half_even ((Zpos n # d) / 2 ^ quantum (binade n d)))
     * 2 ^ quantum (binade n d).
Proof. unfold fl_pos. apply Qred_correct. Qed.

Lemma div_pow2_le (x y : Q) (z : Z) : x <= y -> x / 2 ^ z <= y / 2 ^ z.
Proof.
  intros H. pose proof (pow2_pos z) as P.
  apply Qle_shift_div_l; [exact P|].
  assert (E : x / 2 ^ z * 2 ^ z == x) by (field; lra). rewrite E. exact H.
Qed.

Lemma pow2_div (a b : Z) : 2 ^ a / 2 ^ b == 2 ^ (a - b).
Proof.
  pose proof (pow2_pos b) as P.
  assert (E : 2 ^ a == 2 ^ (a - b) * 2 ^ b).
  { rewrite <- pow2_plus. replace (a - b + b)%Z with a by lia. reflexivity. }
  rewrite E. field. lra.
Qed.

Lemma fl_pos_nonneg (n d : positive) : 0 <= fl_pos n d.
Proof.
  rewrite fl_pos_eq.
  set (ex := quantum (binade n d)).
  pose proof (pow2_pos ex) as P.
  assert (H : (0 <= round_half_even ((Zpos n # d) / 2 ^ ex))%Z).
  { rewrite <- (round_half_even_Z 0). apply round_half_even_mono.
    apply Qle_shift_div_l; [exact P|].
    assert (0 < Zpos n # d) by reflexivity. change (inject_Z 0) with 0. lra. }
  rewrite Zle_Qle in H. change (inject_Z 0) with 0 in H. nra.
Qed.

Lemma fl_pos_mono (n d n' d' : positive) :
  Zpos n # d <= Zpos n' # d' -> fl_pos n d <= fl_pos n' d'.
Proof.
  intros H. rewrite !fl_pos_eq.
  pose proof (binade_mono n d n' d' H) as He.
  destruct (binade_spec n d) as [L U]. destruct (binade_spec n' d') as [L' U'].
  set (e := binade n d) in *. set (e' := binade n' d') in *.
  set (q := Zpos n # d) in *. set (q' := Zpos n' # d') in *.
  destruct (Z.eq_dec (quantum e) (quantum e')) as [E|Hne].
  - rewrite <- E. set (ex := quantum e).
    pose proof (pow2_pos ex) as P.
    pose proof (round_half_even_mono _ _ (div_pow2_le q q' ex H)) as M.
    rewrite Zle_Qle in M. nra.
  - assert (Hq : (quantum e < quantum e')%Z) by (unfold quantum in *; lia).
    assert (He' : (quantum e' = e' - 52)%Z) by (unfold quantum in *; lia).
    assert (Hlt : (e + 1 <= e')%Z) by (unfold quantum in *; lia).
    set (ex := quantum e) in *. set (ex' := quantum e') in *.
    pose proof (pow2_pos ex) as P. pose proof (pow2_pos ex') as P'.
    (* below: at most 2 ^ e' *)
    assert (B1 : inject_Z (round_half_even (q / 2 ^ ex)) * 2 ^ ex <= 2 ^ e').
    { assert (Hq' : q <= 2 ^ e')
        by (pose proof (pow2_le (e + 1) e' Hlt); lra).
      pose proof (round_half_even_mono _ _ (div_pow2_le q (2 ^ e') ex Hq')) as M.
      rewrite (round_half_even_comp (2 ^ e' / 2 ^ ex) (inject_Z (2 ^ (e' - ex)))) in M
        by (rewrite pow2_div; apply pow2_Z; lia).
      rewrite round_half_even_Z in M.
      rewrite Zle_Qle in M. rewrite <- pow2_Z in M by lia.
      assert (E2 : 2 ^ e' == 2 ^ (e' - ex) * 2 ^ ex).
      { rewrite <- pow2_plus. replace (e' - ex + ex)%Z with e' by lia.
        reflexivity. }
      rewrite E2. nra. }
    assert (B2 : 2 ^ e' <= inject_Z (round_half_even (q' / 2 ^ ex')) * 2 ^ ex').
    { pose proof (round_half_even_mono _ _ (div_pow2_le (2 ^ e') q' ex' L')) as M.
      rewrite (round_half_even_comp (2 ^ e' / 2 ^ ex') (inject_Z (2 ^ (e' - ex')))) in M
        by (rewrite pow2_div; apply pow2_Z; lia).
      rewrite round_half_even_Z in M.
      rewrite Zle_Qle in M. rewrite <- pow2_Z in M by lia.
      assert (E2 : 2 ^ e' == 2 ^ (e' - ex') * 2 ^ ex').
      { rewrite <- pow2_plus. replace (e' - ex' + ex')%Z with e' by lia.
        reflexivity. }
      rewrite E2. nra. }
    lra.
Qed.

Lemma Qmake_pos (n d : positive) : 0 < Zpos n # d.
Proof. reflexivity. Qed.

Lemma Qred_shape (q : Q) : q == Qnum (Qred q) # Qden (Qred q).
Proof. rewrite <- (Qred_correct q) at 1. destruct (Qred q). reflexivity. Qed.

(** Rounding to binary64 is monotone. *)
Lemma fl_mono (x y : Q) : x <= y -> fl x <= fl y.
Proof.
  intros H. unfold fl.
  pose proof (Qred_shape x) as Ex. pose proof (Qred_shape y) as Ey.
  destruct (Qnum (Qred x)) as [|n|n] eqn:Nx;
    destruct (Qnum (Qred y)) as [|m|m] eqn:Ny.
  - lra.
  - apply fl_pos_nonneg.
  - exfalso. pose proof (Qmake_pos m (Qden (Qred y))).
    assert (Zneg m # Qden (Qred y) == - (Zpos m # Qden (Qred y))) by reflexivity.
    assert (0 # Qden (Qred x) == 0) by reflexivity. lra.
  - exfalso. pose proof (Qmake_pos n (Qden (Qred x))).
    assert (0 # Qden (Qred y) == 0) by reflexivity. lra.
  - apply fl_pos_mono. rewrite <- Ex, <- Ey. exact H.
  - exfalso. pose proof (Qmake_pos n (Qden (Qred x))).
    pose proof (Qmake_pos m (Qden (Qred y))).
    assert (Zneg m # Qden (Qred y) == - (Zpos m # Qden (Qred y))) by reflexivity.
    lra.
  - pose proof (fl_pos_nonneg n (Qden (Qred x))). lra.
  - pose proof (fl_pos_nonneg n (Qden (Qred x))).
    pose proof (fl_pos_nonneg m (Qden (Qred y))). lra.
  - assert (Zneg n # Qden (Qred x) == - (Zpos n # Qden (Qred x))) by reflexivity.
    assert (Zneg m # Qden (Qred y) == - (Zpos m # Qden (Qred y))) by reflexivity.
    assert (Hm : Zpos m # Qden (Qred y) <= Zpos n # Qden (Qred x)) by lra.
    pose proof (fl_pos_mono _ _ _ _ Hm). lra.
Qed.

Lemma fl_comp (x y : Q) : x == y -> fl x = fl y.
Proof. intros H. unfold fl. rewrite (Qred_complete x y H). reflexivity. Qed.

Lemma Qopp_opp (q : Q) : - - q = q.
Proof.
  destruct q as [a b]. unfold Qopp. cbn [Qnum Qden].
  rewrite Z.opp_involutive. reflexivity.
Qed.

Lemma Qabs_opp_eq (q : Q) : Qabs (- q) = Qabs q.
Proof.
  destruct q as [a b]. unfold Qabs, Qopp. cbn [Qnum Qden].
  rewrite Z.abs_opp. reflexivity.
Qed.

(** Rounding is odd. *)
Lemma fl_opp (x : Q) : fl (- x) = - fl x.
Proof.
  unfold fl. rewrite Qred_opp.
  destruct (Qred x) as [[|n|n] d].
  - reflexivity.
  - change (- fl_pos n d = - fl_pos n d). reflexivity.
  - change (fl_pos n d = - - fl_pos n d). rewrite Qopp_opp. reflexivity.
Qed.

Lemma fl_between (a b x : Q) : a <= x <= b -> fl a <= fl x <= fl b.
Proof. intros [H1 H2]. split; apply fl_mono; assumption. Qed.

(** *** The error of one rounding *)

Lemma round_half_even_error (q : Q) :
  - (1 # 2) <= inject_Z (round_half_even q) - q <= 1 # 2.
Proof.
  unfold round_half_even.
  pose proof (Qfloor_le q) as L. pose proof (Qlt_floor q) as U.
  rewrite inject_Z_plus in U. change (inject_Z 1) with 1 in U.
  destruct (Qcompare_spec (q - inject_Z (Qfloor q)) (1 # 2)) as [H|H|H];
    [destruct (Z.even (Qfloor q))| |];
    rewrite ?inject_Z_plus; change (inject_Z 1) with 1; lra.
Qed.

Lemma fl_pos_error (n d : positive) :
  Qabs (fl_pos n d - (Zpos n # d))
  <= Qmax (unit_roundoff * (Zpos n # d)) subnormal_error.
Proof.
  rewrite fl_pos_eq.
  destruct (binade_spec n d) as [L _].
  set (e := binade n d) in *. set (q := Zpos n # d) in *.
  set (ex := quantum e).
  pose proof (pow2_pos ex) as P.
  pose proof (round_half_even_error (q / 2 ^ ex)) as E.
  set (m := inject_Z (round_half_even (q / 2 ^ ex))) in *.
  assert (Eq : q / 2 ^ ex * 2 ^ ex == q) by (field; lra).
  assert (B : Qabs (m * 2 ^ ex - q) <= (1 # 2) * 2 ^ ex).
  { apply Qabs_case; intros _; nra. }
  eapply Qle_trans; [exact B|].
  unfold ex, quantum.
  destruct (Z.max_spec (e - 52) (-1074)) as [[_ ->]|[_ ->]].
  - eapply Qle_trans; [|apply Q.le_max_r]. unfold subnormal_error.
    assert (E2 : 2 ^ (-1074) == 2 * 2 ^ (-1075)).
    { rewrite <- pow2_succ. reflexivity. }
    rewrite E2. pose proof (pow2_pos (-1075)). lra.
  - eapply Qle_trans; [|apply Q.le_max_l]. unfold unit_roundoff.
    assert (E2 : 2 ^ (e - 52) == 2 * (2 ^ (-53) * 2 ^ e)).
    { rewrite <- pow2_plus, <- pow2_succ.
      replace (-53 + e + 1)%Z with (e - 52)%Z by lia. reflexivity. }
    rewrite E2. pose proof (pow2_pos (-53)). nra.
Qed.

(** One rounding moves a value of magnitude at most [B] by at most
    [2 ^ -53 * B + 2 ^ -1075]. *)
Lemma fl_error (x B : Q) :
  Qabs x <= B ->
  Qabs (fl x - x) <= unit_roundoff * B + subnormal_error.
Proof.
  intros HB. unfold fl.
  pose proof (Qred_shape x) as Ex.
  assert (U : 0 < unit_roundoff) by apply pow2_pos.
  assert (S : 0 < subnormal_error) by apply pow2_pos.
  assert (HB0 : 0 <= B) by (pose proof (Qabs_nonneg x); lra).
  destruct (Qnum (Qred x)) as [|n|n].
  - assert (E0 : x == 0) by (eapply Qeq_trans; [exact Ex|reflexivity]).
    rewrite E0. change (Qabs (0 - 0)) with 0. nra.
  - pose proof (fl_pos_error n (Qden (Qred x))) as E.
    pose proof (Qmake_pos n (Qden (Qred x))) as Pq.
    rewrite <- Ex in E, Pq.
    rewrite (Qabs_pos x) in HB by lra.
    eapply Qle_trans; [exact E|].
    apply Q.max_lub; nra.
  - pose proof (fl_pos_error n (Qden (Qred x))) as E.
    pose proof (Qmake_pos n (Qden (Qred x))) as Pq.
    assert (En : x == - (Zpos n # Qden (Qred x)))
      by (eapply Qeq_trans; [exact Ex|reflexivity]).
    set (q := Zpos n # Qden (Qred x)) in *.
    rewrite (Qabs_wd _ _ En), Qabs_opp, (Qabs_pos q) in HB by lra.
    assert (Ed : - fl_pos n (Qden (Qred x)) - x == - (fl_pos n (Qden (Qred x)) - q))
      by lra.
    rewrite (Qabs_wd _ _ Ed), Qabs_opp.
    eapply Qle_trans; [exact E|].
    apply Q.max_lub; nra.
Qed.

(** The same, as an interval. *)
Lemma fl_near (x B : Q) :
  - B <= x <= B ->
  x - (unit_roundoff * B + subnormal_error) <= fl x
  /\ fl x <= x + (unit_roundoff * B + subnormal_error).
Proof.
  intros [H1 H2].
  assert (HB : Qabs x <= B) by (apply Qabs_case; intros _; lra).
  pose proof (fl_error x B HB) as E.
  apply Qabs_Qle_condition in E. split; lra.
Qed.

(** *** Values that are doubles *)

Lemma fl_byte (z : Z) : (0 <= z <= 255)%Z -> fl (inject_Z z) = inject_Z z.
Proof.
  intros Hz.
  assert (All : forallb (fun n => match fl (inject_Z (Z.of_nat n)) with
                                  | a # b => (a =? Z.of_nat n)%Z && (b =? 1)%positive
                                  end)
                  (seq 0 256) = true) by (vm_compute; reflexivity).
  rewrite forallb_forall in All.
  specialize (All (Z.to_nat z)). rewrite Z2Nat.id in All by lia.
  assert (Hin : In (Z.to_nat z) (seq 0 256)) by (apply in_seq; lia).
  specialize (All Hin).
  destruct (fl (inject_Z z)) as [a b].
  apply andb_prop in All as [Ha Hb].
  apply Z.eqb_eq in Ha. apply Pos.eqb_eq in Hb. subst. reflexivity.
Qed.

Lemma fl_max_double : fl max_double = max_double.
Proof. vm_compute. reflexivity. Qed.

Lemma fl_within_max (q : Q) :
  Qabs q <= max_double -> Qabs (fl q) <= max_double.
Proof.
  intros H. apply Qabs_Qle_condition in H. destruct H as [H1 H2].
  apply fl_mono in H1, H2.
  rewrite fl_opp in H1. rewrite fl_max_double in H1, H2.
  apply Qabs_Qle_condition. split; assumption.
Qed.

End Float64Facts.

Module StylesFacts.
Import JS Styles StylesSpec.

Example darken_short : darken "#fff" (of_Z 10) = "#e5e5e5".
Proof. vm_compute. reflexivity. Qed.

Example lighten_long : lighten "336699" (of_Z 50) = "#4c99e5".
Proof. vm_compute. reflexivity. Qed.

Example lighten_saturates : lighten "#ABCDEF" (of_Z 1000) = "#ffffff".
Proof. vm_compute. reflexivity. Qed.

Example darken_negative_percent : darken "#102030" (of_Z (-50)) = "#183048".
Proof. vm_compute. reflexivity. Qed.

Example darken_beyond_hundred : darken "#102030" (of_Z 250) = "#000000".
Proof. vm_compute. reflexivity. Qed.

Example darken_infinite : darken "#0f0" PInf = "#aN00aN".
Proof. vm_compute. reflexivity. Qed.

(** The arithmetic is that of doubles: [1 - 30 / 100] is a double below
    0.7, and 170 times it is a double below 119. *)
Example darken_rounds_down :
  darken "#aaaaaa" (of_Z 30) = "#767676"
  /\ scaled 170 (darken_factor 30) = 118
  /\ scaled_exactly 170 (1 - 30 / 100) = 119.
Proof. vm_compute. repeat split. Qed.

Example lighten_rounds_down :
  lighten "#646464" (of_Z 13) = "#707070"
  /\ scaled 100 (lighten_factor 13) = 112
  /\ scaled_exactly 100 (1 + 13 / 100) = 113.
Proof. vm_compute. repeat split. Qed.

Example cn_mixed :
  cn [CStr "a"; CFalse; CStr ""; CNull; CStr "b c"; CUndefined] = "a b c".
Proof. reflexivity. Qed.

(** *** [cn] *)

Lemma filter_Boolean_truthy (classes : list ClassValue) :
  List.filter Boolean classes = map CStr (truthy_arguments classes).
Proof.
  induction classes as [|v rest IH]; [reflexivity|].
  destruct v as [[|c s]| | |]; simpl; rewrite ?IH; reflexivity.
Qed.

Lemma join_strings (sep : string) (l : list string) :
  join sep (map CStr l) = String.concat sep l.
Proof.
  induction l as [|a [|b l'] IH]; [reflexivity..|].
  change (join sep (map CStr (a :: b :: l')))
    with (a +:+ sep +:+ join sep (map CStr (b :: l'))).
  rewrite IH. reflexivity.
Qed.

(** C7. [cn] returns the truthy arguments, in their order, with one
    space between consecutive kept entries; it is the empty string when no
    argument is truthy; equal argument lists give equal strings. *)
Theorem cn_joins_truthy (classes classes' : list ClassValue) :
  cn classes = String.concat " " (truthy_arguments classes)
  /\ (truthy_arguments classes = [] -> cn classes = "")
  /\ (classes = classes' -> cn classes = cn classes').
Proof.
  assert (E : cn classes = String.concat " " (truthy_arguments classes)).
  { unfold cn. rewrite filter_Boolean_truthy. apply join_strings. }
  split; [exact E|]. split.
  - intros H. rewrite E, H. reflexivity.
  - intros ->. reflexivity.
Qed.

Lemma cn_joins_truthy_witness :
  cn [CFalse; CStr ""; CNull; CUndefined] = ""
  /\ cn [CStr "btn"; CFalse; CStr "big"] = cn [CStr "btn"; CFalse; CStr "big"]
  /\ cn [CStr "btn"; CFalse; CStr "big"] = "btn big".
Proof.
  split; [|split].
  - exact (proj1 (proj2 (cn_joins_truthy
                           [CFalse; CStr ""; CNull; CUndefined] []))
                 eq_refl).
  - exact (proj2 (proj2 (cn_joins_truthy
                           [CStr "btn"; CFalse; CStr "big"]
                           [CStr "btn"; CFalse; CStr "big"]))
                 eq_refl).
  - exact (proj1 (cn_joins_truthy [CStr "btn"; CFalse; CStr "big"] [])).
Defined.


(** *** [colorUtils] *)

Lemma hex_value_table (c : ascii) (v : Z) :
  hex_value c = Some v -> In (c, v) hex_table.
Proof.
  intros H.
  destruct c as [[] [] [] [] [] [] [] []]; vm_compute in H;
    try discriminate H;
    injection H as <-; simpl; tauto.
Qed.

Ltac hex_cases H :=
  apply hex_value_table in H; simpl in H;
  repeat (destruct H as [H|H]; [injection H as <- <-|]); [..|destruct H].

Lemma parseInt16_pair (a b : ascii) (va vb : Z) :
  hex_value a = Some va -> hex_value b = Some vb ->
  parseInt16 (str [a; b]) = of_Z (16 * va + vb).
Proof.
  intros Ha Hb. hex_cases Ha; hex_cases Hb; vm_compute; reflexivity.
Qed.

Lemma strip_hash_digit (c : ascii) (v : Z) (s : string) :
  hex_value c = Some v -> strip_hash (String c s) = String c s.
Proof. intros H. hex_cases H; reflexivity. Qed.

Lemma Qle_bool_inject (a b : Z) :
  Qle_bool (inject_Z a) (inject_Z b) = (a <=? b).
Proof.
  unfold Qle_bool, inject_Z. simpl. rewrite !Z.mul_1_r. reflexivity.
Qed.

Lemma Math_max_of_Z (a b : Z) :
  Math_max (of_Z a) (of_Z b) = of_Z (Z.max a b).
Proof.
  unfold Math_max, of_Z. rewrite Qle_bool_inject.
  destruct (Z.leb_spec a b); [rewrite Z.max_r by lia|rewrite Z.max_l by lia];
    reflexivity.
Qed.

Lemma Math_min_of_Z (a b : Z) :
  Math_min (of_Z a) (of_Z b) = of_Z (Z.min a b).
Proof.
  unfold Math_min, of_Z. rewrite Qle_bool_inject.
  destruct (Z.leb_spec a b); [rewrite Z.min_l by lia|rewrite Z.min_r by lia];
    reflexivity.
Qed.

(** *** Rounding to a JavaScript number *)

Lemma max_double_large : (256 <= Float64.max_double)%Q.
Proof. apply Qle_bool_iff. vm_compute. reflexivity. Qed.

Lemma round64_finite (q : Q) :
  (Qabs q <= Float64.max_double)%Q -> round64 q = Fin (Float64.fl q).
Proof.
  intros H. apply Float64Facts.fl_within_max in H.
  unfold round64. apply Qle_bool_iff in H. rewrite H. reflexivity.
Qed.

Lemma round64_comp (q q' : Q) : (q == q')%Q -> round64 q = round64 q'.
Proof.
  intros E. unfold round64. rewrite (Float64Facts.fl_comp q q' E). reflexivity.
Qed.

(** Rounding is odd: so are the quotient by 100 and the overflow. *)
Lemma round64_opp (q : Q) : round64 (- q) = opp (round64 q).
Proof.
  unfold round64. rewrite Float64Facts.fl_opp, Float64Facts.Qabs_opp_eq.
  set (r := Float64.fl q).
  destruct (Qle_bool (Qabs r) Float64.max_double) eqn:E; [reflexivity|].
  assert (Hbig : ~ (Qabs r <= Float64.max_double)%Q)
    by (intros H; apply Qle_bool_iff in H; congruence).
  pose proof max_double_large as Hm.
  destruct (Qle_bool 0 r) eqn:E1; destruct (Qle_bool 0 (- r)) eqn:E2;
    try reflexivity; exfalso.
  - apply Qle_bool_iff in E1, E2. apply Hbig.
    apply Qabs_case; intros _; lra.
  - assert (H1 : ~ (0 <= r)%Q) by (intros H; apply Qle_bool_iff in H; congruence).
    assert (H2 : ~ (0 <= - r)%Q) by (intros H; apply Qle_bool_iff in H; congruence).
    lra.
Qed.

Lemma div_100_opp (p : Q) :
  div (Fin (- p)) (of_Z 100) = opp (div (Fin p) (of_Z 100)).
Proof.
  change (round64 (- p / 100) = opp (round64 (p / 100))).
  rewrite <- round64_opp. apply round64_comp. field.
Qed.

(** The factors for a percentage within the range of the doubles. *)
Lemma fdiv_100_bound (p : Q) :
  finite_percent p ->
  (Qabs (Float64.fdiv p 100) <= Float64.max_double - 1)%Q
  /\ div (Fin p) (of_Z 100) = Fin (Float64.fdiv p 100).
Proof.
  unfold finite_percent. intros H.
  assert (Hs : (Float64.fl (Float64.max_double / 100) <= Float64.max_double - 1)%Q)
    by (apply Qle_bool_iff; vm_compute; reflexivity).
  apply Qabs_Qle_condition in H. destruct H as [H1 H2].
  assert (B : (- (Float64.max_double / 100) <= p / 100 <= Float64.max_double / 100)%Q).
  { unfold Qdiv. change (/ 100)%Q with (1 # 100)%Q. split; lra. }
  apply Float64Facts.fl_between in B. rewrite Float64Facts.fl_opp in B.
  fold (Float64.fdiv p 100) in B.
  assert (A : (Qabs (Float64.fdiv p 100) <= Float64.max_double - 1)%Q).
  { apply Qabs_Qle_condition. split; lra. }
  split; [exact A|].
  change (round64 (p / 100) = Fin (Float64.fl (p / 100))).
  apply round64_finite.
  unfold Qdiv. change (/ 100)%Q with (1 # 100)%Q.
  pose proof max_double_large. apply Qabs_Qle_condition. split; lra.
Qed.

Lemma darken_factor_finite (p : Q) :
  finite_percent p ->
  sub (of_Z 1) (div (Fin p) (of_Z 100)) = Fin (darken_factor p).
Proof.
  intros H. destruct (fdiv_100_bound p H) as [B ->].
  change (round64 (1 - Float64.fdiv p 100) = Fin (Float64.fl (1 - Float64.fdiv p 100))).
  apply round64_finite.
  apply Qabs_Qle_condition in B. pose proof max_double_large.
  apply Qabs_Qle_condition. split; lra.
Qed.

Lemma lighten_factor_finite (p : Q) :
  finite_percent p ->
  add (of_Z 1) (div (Fin p) (of_Z 100)) = Fin (lighten_factor p).
Proof.
  intros H. destruct (fdiv_100_bound p H) as [B ->].
  change (round64 (1 + Float64.fdiv p 100) = Fin (Float64.fl (1 + Float64.fdiv p 100))).
  apply round64_finite.
  apply Qabs_Qle_condition in B. pose proof max_double_large.
  apply Qabs_Qle_condition. split; lra.
Qed.

(** The clamping line on finite numbers; a product that overflows is
    clamped like the double beyond the largest one that it stands for. *)
Lemma clamp_channel_finite (c : Z) (f : Q) :
  clamp_channel (of_Z c) (Fin f) = of_Z (scaled c f).
Proof.
  unfold clamp_channel, scaled, Float64.fmul.
  change (mul (of_Z c) (Fin f)) with (round64 (inject_Z c * f)).
  unfold round64. set (r := Float64.fl (inject_Z c * f)).
  pose proof max_double_large as Hm.
  destruct (Qle_bool (Qabs r) Float64.max_double) eqn:E.
  - change (Math_floor (Fin r)) with (of_Z (Qfloor r)).
    rewrite Math_max_of_Z, Math_min_of_Z. reflexivity.
  - assert (Hbig : ~ (Qabs r <= Float64.max_double)%Q)
      by (intros H; apply Qle_bool_iff in H; congruence).
    destruct (Qle_bool 0 r) eqn:E1.
    + apply Qle_bool_iff in E1.
      assert (Hr : (inject_Z 255 <= r)%Q).
      { change (inject_Z 255) with 255%Q.
        destruct (Qlt_le_dec r 255) as [Hlt|Hge]; [|exact Hge].
        exfalso. apply Hbig. rewrite Qabs_pos by exact E1. lra. }
      apply Qfloor_resp_le in Hr. rewrite Qfloor_Z in Hr.
      change (of_Z 255 = of_Z (Z.min 255 (Z.max 0 (Qfloor r)))).
      f_equal. lia.
    + assert (H1 : ~ (0 <= r)%Q) by (intros H; apply Qle_bool_iff in H; congruence).
      assert (Hr : (r <= inject_Z (-1))%Q).
      { change (inject_Z (-1)) with (-1)%Q.
        destruct (Qlt_le_dec (-1) r) as [Hlt|Hge]; [|exact Hge].
        exfalso. apply Hbig. apply Qabs_case; intros _; lra. }
      apply Qfloor_resp_le in Hr. rewrite Qfloor_Z in Hr.
      change (Math_min (of_Z 255) (of_Z 0)
              = of_Z (Z.min 255 (Z.max 0 (Qfloor r)))).
      rewrite Math_min_of_Z. f_equal. lia.
Qed.

Lemma scaled_range (c : Z) (f : Q) : 0 <= scaled c f <= 255.
Proof. unfold scaled. lia. Qed.

(** [toHex] on the values that the clamping leaves. *)
Lemma toHex_byte (z : Z) : 0 <= z <= 255 -> toHex (of_Z z) = hex2 z.
Proof.
  intros Hz.
  assert (All : forallb (fun n => String.eqb (toHex (of_Z (Z.of_nat n)))
                                    (hex2 (Z.of_nat n)))
                  (seq 0 256) = true) by (vm_compute; reflexivity).
  rewrite forallb_forall in All.
  specialize (All (Z.to_nat z)).
  rewrite Z2Nat.id in All by lia.
  apply String.eqb_eq, All, in_seq. lia.
Qed.

Lemma hex_digit_lower (d : Z) : is_lower_hex (hex_digit d) = true.
Proof.
  unfold hex_digit.
  repeat match goal with
         | |- context [match ?x with _ => _ end] => destruct x
         end; reflexivity.
Qed.

Lemma color_string_well_formed (r g b : Z) :
  well_formed_color (color_string r g b) = true.
Proof.
  unfold well_formed_color, color_string, hex2. simpl.
  rewrite !hex_digit_lower. reflexivity.
Qed.

(** The body of both functions on six digits and a finite factor. *)
Lemma scale_color_finite (d1 d2 d3 d4 d5 d6 : ascii) (v1 v2 v3 v4 v5 v6 : Z)
    (f : Q) :
  hex_value d1 = Some v1 -> hex_value d2 = Some v2 ->
  hex_value d3 = Some v3 -> hex_value d4 = Some v4 ->
  hex_value d5 = Some v5 -> hex_value d6 = Some v6 ->
  scale_color (str [d1; d2; d3; d4; d5; d6]) (Fin f)
  = color_string (scaled (16 * v1 + v2) f) (scaled (16 * v3 + v4) f)
                 (scaled (16 * v5 + v6) f).
Proof.
  intros H1 H2 H3 H4 H5 H6. unfold scale_color.
  change (substring 0 2 (str [d1; d2; d3; d4; d5; d6])) with (str [d1; d2]).
  change (substring 2 4 (str [d1; d2; d3; d4; d5; d6])) with (str [d3; d4]).
  change (substring 4 6 (str [d1; d2; d3; d4; d5; d6])) with (str [d5; d6]).
  rewrite (parseInt16_pair _ _ _ _ H1 H2), (parseInt16_pair _ _ _ _ H3 H4),
    (parseInt16_pair _ _ _ _ H5 H6).
  rewrite !clamp_channel_finite.
  rewrite !toHex_byte by apply scaled_range.
  reflexivity.
Qed.

(** What the first lines make of a well-formed input. *)
Lemma normalize_hex_six (hash : bool) (d1 d2 d3 d4 d5 d6 : ascii) (v1 : Z) :
  hex_value d1 = Some v1 ->
  normalize_hex (color_input hash [d1; d2; d3; d4; d5; d6])
  = str [d1; d2; d3; d4; d5; d6].
Proof.
  intros H1. unfold normalize_hex, color_input.
  destruct hash; [reflexivity|].
  change (str [d1; d2; d3; d4; d5; d6])
    with (String d1 (str [d2; d3; d4; d5; d6])).
  rewrite (strip_hash_digit _ _ _ H1). reflexivity.
Qed.

Lemma normalize_hex_three (hash : bool) (d1 d2 d3 : ascii) (v1 : Z) :
  hex_value d1 = Some v1 ->
  normalize_hex (color_input hash [d1; d2; d3])
  = str [d1; d1; d2; d2; d3; d3].
Proof.
  intros H1. unfold normalize_hex, color_input.
  destruct hash; [reflexivity|].
  change (str [d1; d2; d3]) with (String d1 (str [d2; d3])).
  rewrite (strip_hash_digit _ _ _ H1). reflexivity.
Qed.

Lemma darken_finite (hex : string) (p : Q) :
  finite_percent p ->
  darken hex (Fin p) = scale_color (normalize_hex hex) (Fin (darken_factor p)).
Proof.
  intros H. rewrite <- (darken_factor_finite p H). reflexivity.
Qed.

Lemma lighten_finite (hex : string) (p : Q) :
  finite_percent p ->
  lighten hex (Fin p) = scale_color (normalize_hex hex) (Fin (lighten_factor p)).
Proof.
  intros H. rewrite <- (lighten_factor_finite p H). reflexivity.
Qed.

(** C3, as amended. For every input of three or six digits of radix
    16, with or without the number sign, and every finite percentage [p],
    [darken] and [lighten] return the colour string of the channels
    [min(255, max(0, floor(c * (1 -+ p / 100))))], where the quotient, the
    difference or sum and the product are those of doubles (each rounded to
    the nearest double); each channel is within 0 and 255 and the result is a
    number sign followed by six lower-case digits. *)
Theorem darken_lighten_finite (hash : bool) (digits : list ascii) (p : Q) :
  Forall is_hex digits ->
  (length digits = 3 \/ length digits = 6)%nat ->
  finite_percent p ->
  exists r g b : Z,
    channels digits = Some (r, g, b)
    /\ darken (color_input hash digits) (Fin p)
       = color_string (scaled r (darken_factor p)) (scaled g (darken_factor p))
                      (scaled b (darken_factor p))
    /\ lighten (color_input hash digits) (Fin p)
       = color_string (scaled r (lighten_factor p))
                      (scaled g (lighten_factor p))
                      (scaled b (lighten_factor p))
    /\ darken_factor p = Float64.fl (1 - Float64.fl (p / 100))
    /\ lighten_factor p = Float64.fl (1 + Float64.fl (p / 100))
    /\ (forall c f,
          scaled c f = Z.min 255 (Z.max 0 (Qfloor (Float64.fl (inject_Z c * f)))))
    /\ (forall c f, In c [r; g; b] -> 0 <= scaled c f <= 255)
    /\ well_formed_color (darken (color_input hash digits) (Fin p)) = true
    /\ well_formed_color (lighten (color_input hash digits) (Fin p)) = true.
Proof.
  intros Hhex Hlen Hp.
  assert (Hv : forall c, is_hex c -> hex_value c = Some (digit_value c)).
  { intros c [v Hc]. unfold digit_value. rewrite Hc. reflexivity. }
  destruct Hlen as [Hlen|Hlen].
  - destruct digits as [|d1 [|d2 [|d3 [|? ?]]]]; try discriminate Hlen.
    inversion_clear Hhex as [|? ? H1 Hhex'].
    inversion_clear Hhex' as [|? ? H2 Hhex''].
    inversion_clear Hhex'' as [|? ? H3 _].
    apply Hv in H1, H2, H3.
    exists (16 * digit_value d1 + digit_value d1),
      (16 * digit_value d2 + digit_value d2),
      (16 * digit_value d3 + digit_value d3).
    rewrite (darken_finite _ _ Hp), (lighten_finite _ _ Hp).
    rewrite (normalize_hex_three _ _ _ _ _ H1).
    rewrite !(scale_color_finite _ _ _ _ _ _ _ _ _ _ _ _ _ H1 H1 H2 H2 H3 H3).
    rewrite !color_string_well_formed.
    repeat split; try (intros; apply scaled_range).
  - destruct digits as [|d1 [|d2 [|d3 [|d4 [|d5 [|d6 [|? ?]]]]]]];
      try discriminate Hlen.
    inversion_clear Hhex as [|? ? H1 Hhex1].
    inversion_clear Hhex1 as [|? ? H2 Hhex2].
    inversion_clear Hhex2 as [|? ? H3 Hhex3].
    inversion_clear Hhex3 as [|? ? H4 Hhex4].
    inversion_clear Hhex4 as [|? ? H5 Hhex5].
    inversion_clear Hhex5 as [|? ? H6 _].
    apply Hv in H1, H2, H3, H4, H5, H6.
    exists (16 * digit_value d1 + digit_value d2),
      (16 * digit_value d3 + digit_value d4),
      (16 * digit_value d5 + digit_value d6).
    rewrite (darken_finite _ _ Hp), (lighten_finite _ _ Hp).
    rewrite (normalize_hex_six _ _ _ _ _ _ _ _ H1).
    rewrite !(scale_color_finite _ _ _ _ _ _ _ _ _ _ _ _ _ H1 H2 H3 H4 H5 H6).
    rewrite !color_string_well_formed.
    repeat split; try (intros; apply scaled_range).
Qed.

Lemma darken_lighten_finite_witness :
  exists r g b : Z,
    channels ["a"; "a"; "a"; "a"; "a"; "a"]%char = Some (r, g, b)
    /\ darken "#aaaaaa" (Fin 30)
       = color_string (scaled r (darken_factor 30))
                      (scaled g (darken_factor 30))
                      (scaled b (darken_factor 30))
    /\ lighten "#aaaaaa" (Fin 30)
       = color_string (scaled r (lighten_factor 30))
                      (scaled g (lighten_factor 30))
                      (scaled b (lighten_factor 30))
    /\ darken_factor 30 = Float64.fl (1 - Float64.fl (30 / 100))
    /\ lighten_factor 30 = Float64.fl (1 + Float64.fl (30 / 100))
    /\ (forall c f,
          scaled c f = Z.min 255 (Z.max 0 (Qfloor (Float64.fl (inject_Z c * f)))))
    /\ (forall c f, In c [r; g; b] -> 0 <= scaled c f <= 255)
    /\ well_formed_color (darken "#aaaaaa" (Fin 30)) = true
    /\ well_formed_color (lighten "#aaaaaa" (Fin 30)) = true.
Proof.
  apply (darken_lighten_finite true ["a"; "a"; "a"; "a"; "a"; "a"]%char 30).
  - repeat constructor; vm_compute; eexists; reflexivity.
  - right. reflexivity.
  - apply Qle_bool_iff. vm_compute. reflexivity.
Defined.

(** The percentage NaN, which is a [number], reaches [toString(16)]
    through the clamping: the result is not a colour. *)
Lemma darken_lighten_nan_malformed :
  darken "#000" NaN = "#aNaNaN"
  /\ lighten "#000" NaN = "#aNaNaN"
  /\ well_formed_color (darken "#000" NaN) = false
  /\ well_formed_color (lighten "#000" NaN) = false.
Proof. vm_compute. repeat split. Qed.

End StylesFacts.

Module ThemeFacts.
Import ThemeContext.

Example toggle_from_light :
  let w := mount light "feeby-theme" (Some ∅) in
  let w' := toggleTheme (render "feeby-theme" w) w in
  themeState w' = dark
  /\ localStorage w' = Some {[ "feeby-theme" := "dark" ]}.
Proof. split; reflexivity. Qed.

Example mount_ignores_other_values :
  themeState (mount light "k" (Some {[ "k" := "Dark" ]})) = light.
Proof. reflexivity. Qed.

Lemma setTheme_in_sync (key : string) (t : Theme) (w : World) (st : gmap string string) :
  localStorage w = Some st -> in_sync key (provider_setTheme key t w).
Proof.
  intros Hst. exists (<[key := theme_string t]> st). split.
  - unfold provider_setTheme, setItem, setThemeState. simpl.
    rewrite Hst. reflexivity.
  - simpl. apply lookup_insert_eq.
Qed.

Lemma mount_theme (dflt : Theme) (key : string) (st : gmap string string) :
  themeState (mount dflt key (Some st))
  = match st !! key with
    | Some stored =>
        if String.eqb stored "light" then light
        else if String.eqb stored "dark" then dark else dflt
    | None => dflt
    end.
Proof.
  unfold mount, load_effect. simpl.
  destruct (st !! key) as [stored|]; [|reflexivity].
  destruct (String.eqb stored "light"); [reflexivity|].
  destruct (String.eqb stored "dark"); reflexivity.
Qed.

(** C2. The theme is one of the two values; after a call of [setTheme]
    or [toggleTheme] (of any render of the provider) in a browser, the value
    stored under the storage key is the theme of the state, which the next
    render passes down; on mount a stored value is adopted only if it is
    exactly ['light'] or ['dark'], and the default theme is kept otherwise. *)
Theorem theme_mirror_in_sync (key : string) (dflt newTheme : Theme)
    (st : gmap string string) (cell : Theme) (w0 : World) :
  let w := {| localStorage := Some st; themeState := cell |} in
  let ctx := render key w0 in
  (forall t : Theme, theme_string t = "light" \/ theme_string t = "dark")
  /\ in_sync key (setTheme ctx newTheme w)
  /\ theme (render key (setTheme ctx newTheme w)) = newTheme
  /\ in_sync key (toggleTheme ctx w)
  /\ theme (render key (toggleTheme ctx w))
     = match theme ctx with light => dark | dark => light end
  /\ (st !! key = Some "light" ->
      themeState (mount dflt key (Some st)) = light)
  /\ (st !! key = Some "dark" ->
      themeState (mount dflt key (Some st)) = dark)
  /\ (st !! key <> Some "light" -> st !! key <> Some "dark" ->
      themeState (mount dflt key (Some st)) = dflt).
Proof.
  intros w ctx.
  split; [intros []; auto|].
  split; [apply (setTheme_in_sync key newTheme w st eq_refl)|].
  split; [reflexivity|].
  split; [apply (setTheme_in_sync key _ w st eq_refl)|].
  split; [reflexivity|].
  rewrite mount_theme.
  split; [intros ->; reflexivity|].
  split; [intros ->; reflexivity|].
  intros Hl Hd. destruct (st !! key) as [stored|]; [|reflexivity].
  destruct (String.eqb_spec stored "light") as [->|_]; [congruence|].
  destruct (String.eqb_spec stored "dark") as [->|_]; [congruence|].
  reflexivity.
Qed.

Lemma theme_mirror_in_sync_witness :
  themeState (mount light "feeby-theme"
                (Some {[ "feeby-theme" := "dark" ]})) = dark
  /\ themeState (mount dark "feeby-theme"
                   (Some {[ "feeby-theme" := "light" ]})) = light
  /\ themeState (mount dark "feeby-theme"
                   (Some {[ "feeby-theme" := "blue" ]})) = dark.
Proof.
  pose (w0 := {| localStorage := None; themeState := light |}).
  split; [|split].
  - apply (theme_mirror_in_sync "feeby-theme" light light
             {[ "feeby-theme" := "dark" ]} light w0).
    vm_compute. reflexivity.
  - apply (theme_mirror_in_sync "feeby-theme" dark light
             {[ "feeby-theme" := "light" ]} light w0).
    vm_compute. reflexivity.
  - apply (theme_mirror_in_sync "feeby-theme" dark light
             {[ "feeby-theme" := "blue" ]} light w0).
    + vm_compute. discriminate.
    + vm_compute. discriminate.
Defined.

(** C8. Without a provider [useFeebyTheme] returns the theme ['light']
    and two functions that leave everything as it is. *)
Theorem useFeebyTheme_without_provider (w : World) (t : Theme) :
  let hook := useFeebyTheme None in
  theme hook = light
  /\ setTheme hook t w = w
  /\ toggleTheme hook w = w.
Proof. repeat split. Qed.

End ThemeFacts.

Module SeedFacts.
Import Seed SeedSpec.

Example tape_default_is_still :
  run Tape (mount Tape None 0) [Tick] = None.
Proof. reflexivity. Qed.

Example tape_bouncy_counts :
  run Tape (mount Tape (Some true) 0) [Tick; Tick; Tick]
  = Some {| seed := 3; timer := Some 150 |}.
Proof. reflexivity. Qed.

Example binder_paper_default_counts :
  run BinderPaper (mount BinderPaper None 0) [Tick; Tick]
  = Some {| seed := 2; timer := Some 150 |}.
Proof. reflexivity. Qed.

(** A render that turns [isBouncy] off clears the interval, and the seed
    stays where the ticks have taken it. *)
Example tape_stops_bouncing :
  run Tape (mount Tape (Some true) 0) [Tick; Tick; Props (Some false)]
  = Some {| seed := 2; timer := None |}
  /\ run Tape (mount Tape (Some true) 0) [Tick; Tick; Props (Some false); Tick]
     = None.
Proof. split; reflexivity. Qed.





(** After every run the interval is the one that the effect sets up
    for the [isBouncy] of the last render. *)
Lemma run_timer (c : Component) (es : list Event) :
  forall (prop : option bool) (s s' : State),
    timer s = seed_effect c (isBouncy c prop) ->
    run c s es = Some s' ->
    timer s' = seed_effect c (isBouncy c (last_prop prop es)).
Proof.
  induction es as [|e es IH]; intros prop s s' Ht Hrun; simpl in Hrun.
  - injection Hrun as <-. exact Ht.
  - destruct e as [|prop']; simpl in Hrun.
    + destruct (timer s) as [period|] eqn:Et; [|discriminate Hrun].
      apply (IH prop {| seed := (seed s + 1)%Q; timer := Some period |} s' Ht Hrun).
    + apply (IH prop' {| seed := seed s;
                         timer := seed_effect c (isBouncy c prop') |} s'
                eq_refl Hrun).
Qed.






End SeedFacts.

Module DoodlePadFacts.
Import DoodlePad.

Example draw_two_points :
  run [MouseDown (1, 1); MouseMove (2, 3); MouseUp; MouseMove (9, 9)]%Q initial
  = Some {| isDrawing := false;
            strokes := [ {| points := [(1, 1); (2, 3)]%Q; mode := pen |} ];
            tool := pen |}.
Proof. reflexivity. Qed.

Example eraser_stroke_after_pen :
  run [MouseDown (1, 1); MouseUp; SetMode eraser; MouseDown (5, 5)]%Q initial
  = Some {| isDrawing := true;
            strokes := [ {| points := [(1, 1)]%Q; mode := pen |};
                         {| points := [(5, 5)]%Q; mode := eraser |} ];
            tool := eraser |}.
Proof. reflexivity. Qed.

(** C4. A mouse-down appends exactly one stroke, which has the selected
    tool as mode and the position of the event as its only point, after the
    strokes recorded before, which stay as they are; the clear action leaves
    the empty list. *)
Theorem mouse_down_appends_one_stroke (pos : Q * Q) (s : State) :
  let s' := handleMouseDown pos s in
  strokes s' = strokes s ++ [ {| points := [pos]; mode := tool s |} ]
  /\ length (strokes s') = S (length (strokes s))
  /\ take (length (strokes s)) (strokes s') = strokes s
  /\ last (strokes s') = Some {| points := [pos]; mode := tool s |}
  /\ strokes (handleClear s) = [].
Proof.
  simpl. repeat split.
  - rewrite length_app. simpl. lia.
  - apply take_app_length.
  - apply last_snoc.
Qed.

(** *** What the handlers keep *)

Lemma push_to_last_snoc (pos : Q * Q) (earlier : list Stroke) (cur : Stroke) :
  push_to_last pos (earlier ++ [cur])
  = Some (earlier ++ [ {| points := points cur ++ [pos]; mode := mode cur |} ]).
Proof.
  unfold push_to_last. rewrite last_snoc, length_app. simpl.
  replace (length earlier + 1 - 1)%nat with (length earlier + 0)%nat by lia.
  rewrite insert_app_r. reflexivity.
Qed.

(** A move while drawing, with a stroke to draw on, adds its point to the
    last stroke and leaves the earlier ones alone. *)
Lemma mouse_move_extends_last (pos : Q * Q) (earlier : list Stroke)
    (cur : Stroke) (m : Mode) :
  handleMouseMove pos
    {| isDrawing := true; strokes := earlier ++ [cur]; tool := m |}
  = Some {| isDrawing := true;
            strokes := earlier ++ [ {| points := points cur ++ [pos];
                                       mode := mode cur |} ];
            tool := m |}.
Proof.
  unfold handleMouseMove. simpl. rewrite push_to_last_snoc. reflexivity.
Qed.

(** No handler leaves a stroke without points. *)
Lemma handle_keeps_well_formed (e : Event) (s s' : State) :
  strokes_well_formed s -> handle e s = Some s' -> strokes_well_formed s'.
Proof.
  unfold strokes_well_formed. intros Hwf He.
  destruct e as [pos|pos| | | |m]; simpl in He;
    try (injection He as <-; simpl; try assumption).
  - apply Forall_app. split; [assumption|]. repeat constructor. discriminate.
  - unfold handleMouseMove in He.
    destruct (isDrawing s); simpl in He; [|injection He as <-; assumption].
    destruct (strokes s) as [|st0 l] eqn:El using rev_ind.
    + discriminate He.
    + rewrite push_to_last_snoc in He. injection He as <-. simpl.
      apply Forall_app in Hwf as [Hl _].
      apply Forall_app. split; [assumption|].
      repeat constructor. simpl. intros H. apply app_eq_nil in H as [_ H].
      discriminate H.
  - constructor.
Qed.

(** Every handler but the clear action keeps a stroke under the pen. *)
Lemma handle_keeps_drawing_stroke (e : Event) (s s' : State) :
  e <> Clear ->
  drawing_has_stroke s -> handle e s = Some s' -> drawing_has_stroke s'.
Proof.
  unfold drawing_has_stroke. intros Hne Hinv He.
  destruct e as [pos|pos| | | |m]; simpl in He;
    try (injection He as <-; simpl; try discriminate; try assumption).
  - intros _ H. apply app_eq_nil in H as [_ H]. discriminate H.
  - unfold handleMouseMove in He.
    destruct (isDrawing s) eqn:Ed; simpl in He; [|injection He as <-; congruence].
    destruct (strokes s) as [|st0 l] eqn:El using rev_ind.
    + discriminate He.
    + rewrite push_to_last_snoc in He. injection He as <-. simpl.
      intros _ H. apply app_eq_nil in H as [_ H]. discriminate H.
  - contradiction.
Qed.

(** C9, at the failing input. The clear action empties the list and leaves
    [isDrawing] as it is: after a mouse-down, the state has [isDrawing] true
    and no stroke, and the next mouse-move fails. *)
Theorem clear_while_drawing_breaks_move :
  run [MouseDown (1, 1); Clear]%Q initial
  = Some {| isDrawing := true; strokes := []; tool := pen |}
  /\ drawing_has_stroke (handleMouseDown (1, 1)%Q initial)
  /\ ~ drawing_has_stroke (handleClear (handleMouseDown (1, 1)%Q initial))
  /\ run [MouseDown (1, 1); Clear; MouseMove (2, 2)]%Q initial = None.
Proof.
  split; [reflexivity|]. split; [|split; [|reflexivity]].
  - intros _. discriminate.
  - intros H. apply (H eq_refl). reflexivity.
Qed.

End DoodlePadFacts.

Module JourneyLineFacts.
Import Rough ThemeContext JourneyLine.
Local Open Scope Q_scope.

Example two_points_with_constant_draws :
  build_path (fun _ => 1 # 2) [ {| x := 0; y := 0 |}; {| x := 400; y := 100 |} ]
  = [ M 0 0; C (-150) 150 550 (-50) 400 100 ].
Proof. vm_compute. reflexivity. Qed.

Lemma segments_visit (random : Random) (rest : list Point) :
  forall i start k,
    length (segments random i start rest k) = length rest
    /\ Forall2 ends_at (segments random i start rest k) rest.
Proof.
  induction rest as [|end_ rest IH]; intros i start k; simpl.
  - split; [reflexivity|constructor].
  - destruct (IH (S i) end_ (k + 3)%nat) as [Hlen Hall].
    split; [rewrite Hlen; reflexivity|].
    constructor; [|exact Hall].
    unfold segment, ends_at. eauto.
Qed.

(** C5. For two or more points the connector starts with [M] at the
    first point and continues with one [C] segment per further point, each
    ending exactly at its point, in order; that path is what the renderer is
    given. For fewer than two points nothing is handed to the renderer and
    the children of the element stay as they are; while the ref is null the
    effect does nothing. *)
Theorem journey_line_visits_points (random : Random) (old : list Node)
    (points : list Point) (theme : Theme) (strokeWidth roughness : Q) :
  ((2 <= length points)%nat ->
   exists p0 rest curves line_options,
     points = p0 :: rest
     /\ build_path random points = M (x p0) (y p0) :: curves
     /\ length curves = (length points - 1)%nat
     /\ Forall2 ends_at curves rest
     /\ effect random (Some old) points theme strokeWidth roughness
        = Some {| children := [PathNode (build_path random points) line_options];
                  rendered := [PathNode (build_path random points) line_options] |})
  /\ ((length points < 2)%nat ->
      effect random (Some old) points theme strokeWidth roughness
      = Some {| children := old; rendered := [] |})
  /\ effect random None points theme strokeWidth roughness = None.
Proof.
  split.
  - intros Hlen. destruct points as [|p0 rest]; [simpl in Hlen; lia|].
    destruct (segments_visit random rest 1 p0 0) as [Hl Hall].
    exists p0, rest, (segments random 1 p0 rest 0). eexists.
    split; [reflexivity|]. split; [reflexivity|].
    split; [rewrite Hl; simpl; lia|]. split; [exact Hall|].
    unfold effect.
    destruct (Nat.ltb_spec 1 (length (p0 :: rest))) as [_|Hc]; [|lia].
    reflexivity.
  - split; [|reflexivity]. intros Hlen. unfold effect.
    destruct (Nat.ltb_spec 1 (length points)) as [Hc|_]; [lia|reflexivity].
Qed.

Lemma journey_line_visits_points_witness :
  (exists p0 rest curves line_options,
     [ {| x := 0; y := 0 |}; {| x := 3; y := 4 |}; {| x := 6; y := 0 |} ]
     = p0 :: rest
     /\ build_path (fun _ => 0)
          [ {| x := 0; y := 0 |}; {| x := 3; y := 4 |}; {| x := 6; y := 0 |} ]
        = M (x p0) (y p0) :: curves
     /\ length curves = 2%nat
     /\ Forall2 ends_at curves rest
     /\ effect (fun _ => 0) (Some [])
          [ {| x := 0; y := 0 |}; {| x := 3; y := 4 |}; {| x := 6; y := 0 |} ]
          light 2 (5 # 2)
        = Some {| children :=
                    [PathNode
                       (build_path (fun _ => 0)
                          [ {| x := 0; y := 0 |}; {| x := 3; y := 4 |};
                            {| x := 6; y := 0 |} ])
                       line_options];
                  rendered :=
                    [PathNode
                       (build_path (fun _ => 0)
                          [ {| x := 0; y := 0 |}; {| x := 3; y := 4 |};
                            {| x := 6; y := 0 |} ])
                       line_options] |})
  /\ effect (fun _ => 0) (Some []) [ {| x := 1; y := 1 |} ] light 2 (5 # 2)
     = Some {| children := []; rendered := [] |}.
Proof.
  split.
  - refine (proj1 (journey_line_visits_points (fun _ => 0) []
                     [ {| x := 0; y := 0 |}; {| x := 3; y := 4 |};
                       {| x := 6; y := 0 |} ] light 2 (5 # 2)) _).
    simpl. lia.
  - refine (proj1 (proj2 (journey_line_visits_points (fun _ => 0) []
                            [ {| x := 1; y := 1 |} ] light 2 (5 # 2))) _).
    simpl. lia.
Defined.

End JourneyLineFacts.

Module SketchyRectangleFacts.
Import Rough ThemeContext SketchyRectangle.
Local Open Scope Q_scope.

Example radius_small : radius 100 60 10 = 10.
Proof. reflexivity. Qed.

Example radius_clamped_by_height : radius 100 60 45 = 60 / 2.
Proof. reflexivity. Qed.

Lemma Math_min3_least (a b c : Q) :
  Math_min3 a b c <= a /\ Math_min3 a b c <= b /\ Math_min3 a b c <= c
  /\ (Math_min3 a b c == a \/ Math_min3 a b c == b \/ Math_min3 a b c == c).
Proof.
  unfold Math_min3.
  pose proof (Q.min_spec a b) as Hab.
  pose proof (Q.min_spec (Qmin a b) c) as Habc.
  set (m := Qmin a b) in *. set (n := Qmin m c) in *.
  destruct Hab as [[H1 E1]|[H1 E1]]; destruct Habc as [[H2 E2]|[H2 E2]];
    (split; [lra|]; split; [lra|]; split; [lra|]);
    first [left; lra | right; left; lra | right; right; lra].
Qed.

(** C10. The radius of the path is the least of the requested radius,
    half the width and half the height; the four arcs and the ends of the
    straight edges are drawn with it; it is the requested radius exactly when
    that exceeds neither half. *)
Theorem rectangle_radius_is_clamped (width height borderRadius strokeWidth : Q) :
  let r := radius width height borderRadius in
  let x0 := strokeWidth / 2 in
  let w := width - strokeWidth in
  let h := height - strokeWidth in
  r = Qmin (Qmin borderRadius (width / 2)) (height / 2)
  /\ r <= borderRadius /\ r <= width / 2 /\ r <= height / 2
  /\ (r == borderRadius \/ r == width / 2 \/ r == height / 2)
  /\ arc_radii (build_path width height borderRadius strokeWidth)
     = [(r, r); (r, r); (r, r); (r, r)]
  /\ build_path width height borderRadius strokeWidth
     = [ M (x0 + r) x0; L (x0 + w - r) x0;
         A r r 0 false true (x0 + w) (x0 + r); L (x0 + w) (x0 + h - r);
         A r r 0 false true (x0 + w - r) (x0 + h); L (x0 + r) (x0 + h);
         A r r 0 false true x0 (x0 + h - r); L x0 (x0 + r);
         A r r 0 false true (x0 + r) x0; ClosePath ]
  /\ (r == borderRadius
      <-> borderRadius <= width / 2 /\ borderRadius <= height / 2).
Proof.
  intros r x0 w h.
  destruct (Math_min3_least borderRadius (width / 2) (height / 2))
    as (Ha & Hb & Hc & Hd).
  change (Math_min3 borderRadius (width / 2) (height / 2)) with r
    in Ha, Hb, Hc, Hd.
  split; [reflexivity|]. split; [exact Ha|]. split; [exact Hb|].
  split; [exact Hc|]. split; [exact Hd|].
  split; [reflexivity|]. split; [reflexivity|].
  clearbody r. split.
  - intros E. split; lra.
  - intros [H1 H2]. destruct Hd as [E|[E|E]]; lra.
Qed.

Lemma rectangle_radius_is_clamped_witness :
  radius 100 60 10 == 10 /\ ~ radius 100 60 45 == 45.
Proof.
  split.
  - apply (proj2 (proj2 (proj2 (proj2 (proj2 (proj2 (proj2
             (rectangle_radius_is_clamped 100 60 10 2)))))))).
    split; discriminate.
  - intros E.
    apply (proj2 (proj2 (proj2 (proj2 (proj2 (proj2 (proj2
             (rectangle_radius_is_clamped 100 60 45 2)))))))) in E.
    destruct E as [_ E]. apply E. reflexivity.
Defined.

End SketchyRectangleFacts.

Module RippedBannerFacts.
Import Rough ThemeContext Float64 RippedBanner.
Local Open Scope Q_scope.

Example top_side_without_jitter :
  jaggedLine (fun _ => 1 # 2) 0 0 60 0 2
  = [L 10 0; L 20 0; L 30 0; L 40 0; L 50 0; L 60 0].
Proof. vm_compute. reflexivity. Qed.

(** A sixth of 250 is not a double, and neither is the first point of the
    top side less four. *)
Example top_side_of_250 :
  jaggedLine (fun _ => 0) 0 0 250 0 2
  = [L (5301112061384021 # 140737488355328) (-4);
     L (5582587038094677 # 70368744177664) (-4);
     L 121 (-4);
     L (5723324526450005 # 35184372088832) (-4);
     L (3594670015075669 # 17592186044416) (-4);
     L 246 (-4)].
Proof. vm_compute. reflexivity. Qed.

(** *** The jitter *)

Lemma jitter_bound (random : Random) (k : nat) :
  0 <= random k < 1 -> -4 <= jitter random k <= 4.
Proof.
  intros [H0 H1]. unfold jitter, fmul, fsub, jaggedness.
  assert (B : - (1 # 2) <= random k - (1 # 2) <= 1 # 2) by (split; lra).
  apply Float64Facts.fl_between in B.
  change (fl (- (1 # 2))) with (- (1 # 2)) in B.
  change (fl (1 # 2)) with (1 # 2) in B.
  set (j := fl (random k - (1 # 2))) in *.
  assert (B' : -4 <= j * 8 <= 4) by (split; lra).
  apply Float64Facts.fl_between in B'.
  change (fl (-4)) with (-4) in B'. change (fl 4) with 4 in B'.
  exact B'.
Qed.

(** *** One coordinate of a vertex *)

(** One rounding, with the constant [2 ^ -53] written out. *)
Lemma fl_close (x B : Q) :
  - B <= x <= B ->
  x - (1 # 9007199254740992) * (B + 1) <= fl x
  /\ fl x <= x + (1 # 9007199254740992) * (B + 1).
Proof.
  intros H. destruct (Float64Facts.fl_near x B H) as [L U].
  assert (E : unit_roundoff == 1 # 9007199254740992) by reflexivity.
  assert (S : subnormal_error <= 1 # 9007199254740992)
    by (apply Qle_bool_iff; vm_compute; reflexivity).
  rewrite E in L, U. split; lra.
Qed.

Lemma slack_eq (W : Q) : (W + 1) / 2 ^ 48 == (W + 1) * (1 # 281474976710656).
Proof. reflexivity. Qed.

Ltac round_step x B :=
  let H := fresh "R" in
  assert (H : - B <= x <= B) by (split; lra);
  apply fl_close in H.

(** The coordinate of step [i] between [a] and [b], with the jitter [j]
    added: it is within [|j|] and the slack of the point of the plane. *)
Lemma coordinate_near (W a b j : Q) (i : nat) :
  Qabs a <= W -> Qabs b <= W -> -4 <= j <= 4 -> (1 <= i <= 6)%nat ->
  let dx := fdiv (fsub b a) 6 in
  let px := fadd a (fmul dx (inject_Z (Z.of_nat i))) in
  Qabs (fadd px j - (a + (b - a) * (inject_Z (Z.of_nat i) / 6)))
  <= 4 + (W + 1) / 2 ^ 48
  /\ Qabs (fsub b a) <= 4 * W + 8 /\ Qabs dx <= 4 * W + 8
  /\ Qabs (fmul dx (inject_Z (Z.of_nat i))) <= 4 * W + 8
  /\ Qabs px <= 5 * W + 8 /\ Qabs (fadd px j) <= 6 * W + 16.
Proof.
  intros Ha Hb Hj Hi dx px. subst px dx.
  apply Qabs_Qle_condition in Ha, Hb.
  rewrite slack_eq. unfold fadd, fsub, fmul, fdiv, Qdiv.
  change (/ 6) with (1 # 6).
  round_step (b - a) (2 * W).
  set (s := fl (b - a)) in *.
  round_step (s * (1 # 6)) ((W + 1) * (1 # 2)).
  set (dx := fl (s * (1 # 6))) in *.
  assert (Hk : exists k : Q,
             inject_Z (Z.of_nat i) = k
             /\ (k = 1 \/ k = 2 \/ k = 3 \/ k = 4 \/ k = 5 \/ k = 6)).
  { destruct i as [|[|[|[|[|[|[|i]]]]]]]; try lia;
      eexists; (split; [reflexivity|]); tauto. }
  destruct Hk as (k & -> & Hk).
  assert (T : exists t, t = fl (dx * k)
                        /\ dx * k - (1 # 9007199254740992) * (3 * W + 2) <= t
                        /\ t <= dx * k + (1 # 9007199254740992) * (3 * W + 2)).
  { exists (fl (dx * k)). split; [reflexivity|].
    assert (R1 : - (3 * W + 1) <= dx * k <= 3 * W + 1)
      by (destruct Hk as [->|[->|[->|[->|[->| ->]]]]]; split; lra).
    apply fl_close in R1. split; lra. }
  destruct T as (t & <- & T1 & T2).
  assert (Bt : - (3 * W + 2) <= t <= 3 * W + 2)
    by (destruct Hk as [->|[->|[->|[->|[->| ->]]]]]; split; lra).
  round_step (a + t) (4 * W + 2).
  set (px := fl (a + t)) in *.
  round_step (px + j) (5 * W + 7).
  set (v := fl (px + j)) in *.
  split; [|repeat split; apply Qabs_Qle_condition; split; lra].
  apply Qabs_Qle_condition.
  destruct Hk as [->|[->|[->|[->|[->| ->]]]]]; split; lra.
Qed.

Lemma size_bound : 6 * 2 ^ 1000 + 16 <= max_double.
Proof. apply Qle_bool_iff. vm_compute. reflexivity. Qed.

(** A vertex of a side whose corners have coordinates of magnitude at
    most [W]. *)
Lemma jagged_vertex_near (random : Random) (W x1 y1 x2 y2 : Q) (i k : nat) :
  (forall n, 0 <= random n < 1) ->
  Qabs x1 <= W -> Qabs y1 <= W -> Qabs x2 <= W -> Qabs y2 <= W ->
  W <= 2 ^ 1000 -> (1 <= i <= 6)%nat ->
  line_near (4 + (W + 1) / 2 ^ 48)
    (jagged_vertex random x1 y1 (fdiv (fsub x2 x1) 6) (fdiv (fsub y2 y1) 6) i k)
    (side_point x1 y1 x2 y2 i)
  /\ finite_vertex
       (jagged_vertex random x1 y1 (fdiv (fsub x2 x1) 6) (fdiv (fsub y2 y1) 6)
          i k).
Proof.
  intros Hr Hx1 Hy1 Hx2 Hy2 HW Hi.
  pose proof (jitter_bound random k (Hr k)) as J1.
  pose proof (jitter_bound random (k + 1) (Hr (k + 1)%nat)) as J2.
  destruct (coordinate_near W x1 x2 _ i Hx1 Hx2 J1 Hi) as (X & _ & _ & _ & _ & FX).
  destruct (coordinate_near W y1 y2 _ i Hy1 Hy2 J2 Hi) as (Y & _ & _ & _ & _ & FY).
  pose proof size_bound as SB. set (big := 2 ^ 1000) in *.
  unfold jagged_vertex, line_near, finite_vertex, within, side_point.
  cbn [fst snd].
  split; [split; assumption|].
  split; [apply (Qle_trans _ _ _ FX)|apply (Qle_trans _ _ _ FY)]; lra.
Qed.

Lemma jagged_loop_near (random : Random) (W x1 y1 x2 y2 : Q) :
  (forall n, 0 <= random n < 1) ->
  Qabs x1 <= W -> Qabs y1 <= W -> Qabs x2 <= W -> Qabs y2 <= W ->
  W <= 2 ^ 1000 ->
  forall n i k, (1 <= i)%nat -> (i + n <= 7)%nat ->
    Forall2 (line_near (4 + (W + 1) / 2 ^ 48))
      (jagged_loop random x1 y1 (fdiv (fsub x2 x1) 6) (fdiv (fsub y2 y1) 6)
         i n k)
      (map (side_point x1 y1 x2 y2) (seq i n))
    /\ Forall finite_vertex
         (jagged_loop random x1 y1 (fdiv (fsub x2 x1) 6) (fdiv (fsub y2 y1) 6)
            i n k).
Proof.
  intros Hr Hx1 Hy1 Hx2 Hy2 HW.
  induction n as [|n IH]; intros i k Hi Hn; cbn [jagged_loop map seq].
  - split; constructor.
  - destruct (IH (S i) (k + 2)%nat ltac:(lia) ltac:(lia)) as [IH1 IH2].
    destruct (jagged_vertex_near random W x1 y1 x2 y2 i k Hr Hx1 Hy1 Hx2 Hy2 HW
                ltac:(lia)) as [V1 V2].
    split; constructor; assumption.
Qed.

Lemma jaggedLine_near (random : Random) (W x1 y1 x2 y2 : Q) (k : nat) :
  (forall n, 0 <= random n < 1) ->
  Qabs x1 <= W -> Qabs y1 <= W -> Qabs x2 <= W -> Qabs y2 <= W ->
  W <= 2 ^ 1000 ->
  length (jaggedLine random x1 y1 x2 y2 k) = 6%nat
  /\ Forall2 (line_near (4 + (W + 1) / 2 ^ 48))
       (jaggedLine random x1 y1 x2 y2 k) (side_points x1 y1 x2 y2)
  /\ Forall finite_vertex (jaggedLine random x1 y1 x2 y2 k).
Proof.
  intros Hr Hx1 Hy1 Hx2 Hy2 HW. split; [reflexivity|].
  apply (jagged_loop_near random W x1 y1 x2 y2 Hr Hx1 Hy1 Hx2 Hy2 HW 6 1 k);
    lia.
Qed.

Lemma near_either (d : Q) (l : list PathCmd) (k : list (Q * Q)) :
  Forall2 (line_near d) l k ->
  Forall2 (fun c p => move_near 4 c p \/ line_near d c p) l k.
Proof.
  intros H. eapply Forall2_impl; [exact H|]. intros c p Hc. right. exact Hc.
Qed.

(** A vertex that is more than 4 away from its point: for the width 250
    and draws that are all 0, the first vertex of the top side is at the
    double 37.666666666666664, which is 4 and 1/422212465065984 to the left
    of the point 125/3 of the rectangle. *)
Lemma ripped_banner_vertex_beyond_jitter :
  (forall n : nat, 0 <= (fun _ : nat => 0) n < 1)
  /\ nth_error (build_path (fun _ => 0) 250 100) 1
     = Some (L (5301112061384021 # 140737488355328) (-4))
  /\ nth_error (ideal_points 250 100) 1 = Some (side_point 0 0 250 0 1)
  /\ fst (side_point 0 0 250 0 1) == 125 # 3
  /\ (125 # 3) - (5301112061384021 # 140737488355328)
     == 4 + (1 # 422212465065984)
  /\ ~ line_near 4 (L (5301112061384021 # 140737488355328) (-4))
         (side_point 0 0 250 0 1).
Proof.
  split; [intros n; split; [discriminate|reflexivity]|].
  split; [vm_compute; reflexivity|].
  split; [reflexivity|].
  split; [vm_compute; reflexivity|].
  split; [vm_compute; reflexivity|].
  unfold line_near, within. cbn [fst snd]. intros [Hx _].
  apply Qabs_Qle_condition in Hx. destruct Hx as [Hx _].
  vm_compute in Hx. apply Hx. reflexivity.
Qed.

(** C6, as amended. For every width and height of magnitude at most
    [2 ^ 1000] and every supply of draws in [0, 1), the outline is an [M]
    followed by four sides of six [L] segments each. The start is within 4
    (half of the jaggedness 8) of the corner, in each coordinate. Every other
    vertex is within 4 plus a rounding slack of its point on the exact
    rectangle: the side point and its sum with the jitter are computed in the
    arithmetic of doubles, which adds at most
    [(max(|width|, |height|) + 1) / 2 ^ 48]. Every coordinate is finite. *)
Theorem ripped_banner_outline_within_jitter (random : Random)
    (width height : Q) :
  (forall n, 0 <= random n < 1) -> finite_size width height ->
  let d := 4 + rounding_slack width height in
  exists start top right bottom left,
    build_path random width height
    = start :: top ++ right ++ bottom ++ left
    /\ move_near 4 start (0, 0)
    /\ (length top = 6 /\ length right = 6
        /\ length bottom = 6 /\ length left = 6)%nat
    /\ Forall2 (line_near d) top (side_points 0 0 width 0)
    /\ Forall2 (line_near d) right (side_points width 0 width height)
    /\ Forall2 (line_near d) bottom (side_points width height 0 height)
    /\ Forall2 (line_near d) left (side_points 0 height 0 0)
    /\ Forall2 (fun c p => move_near 4 c p \/ line_near d c p)
         (build_path random width height) (ideal_points width height)
    /\ Forall finite_vertex (build_path random width height).
Proof.
  intros Hr [Hw Hh] d. subst d. unfold rounding_slack.
  set (W := Qmax (Qabs width) (Qabs height)).
  assert (W0 : Qabs 0 <= W).
  { change (Qabs 0) with 0. unfold W.
    pose proof (Qabs_nonneg width). pose proof (Q.le_max_l (Qabs width) (Qabs height)).
    lra. }
  assert (Ww : Qabs width <= W) by apply Q.le_max_l.
  assert (Wh : Qabs height <= W) by apply Q.le_max_r.
  assert (HW : W <= 2 ^ 1000) by (apply Q.max_lub; assumption).
  destruct (jaggedLine_near random W 0 0 width 0 2 Hr W0 W0 Ww W0 HW)
    as (L1 & N1 & F1).
  destruct (jaggedLine_near random W width 0 width height 14 Hr Ww W0 Ww Wh HW)
    as (L2 & N2 & F2).
  destruct (jaggedLine_near random W width height 0 height 26 Hr Ww Wh W0 Wh HW)
    as (L3 & N3 & F3).
  destruct (jaggedLine_near random W 0 height 0 0 38 Hr W0 Wh W0 W0 HW)
    as (L4 & N4 & F4).
  pose proof (jitter_bound random 0 (Hr 0%nat)) as J0.
  pose proof (jitter_bound random 1 (Hr 1%nat)) as J1.
  assert (N0 : move_near 4 (M (jitter random 0) (jitter random 1)) (0, 0)).
  { unfold move_near, within. cbn [fst snd].
    split; apply Qabs_Qle_condition; split; lra. }
  assert (F0 : finite_vertex (M (jitter random 0) (jitter random 1))).
  { pose proof size_bound as SB. set (big := 2 ^ 1000) in *.
    assert (0 <= big) by (pose proof (Qabs_nonneg width); lra).
    unfold finite_vertex. split; apply Qabs_Qle_condition; split; lra. }
  eexists _, _, _, _, _. split; [reflexivity|].
  split; [exact N0|]. split; [auto|].
  split; [exact N1|]. split; [exact N2|]. split; [exact N3|].
  split; [exact N4|]. split.
  - unfold build_path, ideal_points. constructor; [left; exact N0|].
    apply Forall2_app; [exact (near_either _ _ _ N1)|].
    apply Forall2_app; [exact (near_either _ _ _ N2)|].
    apply Forall2_app; [exact (near_either _ _ _ N3)|].
    exact (near_either _ _ _ N4).
  - unfold build_path. apply Forall_cons_2; [exact F0|].
    repeat (apply Forall_app; split); assumption.
Qed.

Lemma ripped_banner_outline_within_jitter_witness :
  let d := 4 + rounding_slack 250 100 in
  exists start top right bottom left,
    build_path (fun _ => 0) 250 100
    = start :: top ++ right ++ bottom ++ left
    /\ move_near 4 start (0, 0)
    /\ (length top = 6 /\ length right = 6
        /\ length bottom = 6 /\ length left = 6)%nat
    /\ Forall2 (line_near d) top (side_points 0 0 250 0)
    /\ Forall2 (line_near d) right (side_points 250 0 250 100)
    /\ Forall2 (line_near d) bottom (side_points 250 100 0 100)
    /\ Forall2 (line_near d) left (side_points 0 100 0 0)
    /\ Forall2 (fun c p => move_near 4 c p \/ line_near d c p)
         (build_path (fun _ => 0) 250 100) (ideal_points 250 100)
    /\ Forall finite_vertex (build_path (fun _ => 0) 250 100).
Proof.
  apply (ripped_banner_outline_within_jitter (fun _ => 0) 250 100).
  - intros _. split; [discriminate|reflexivity].
  - split; apply Qle_bool_iff; vm_compute; reflexivity.
Defined.

End RippedBannerFacts.

Module StyleObjectsFacts.
Import StyleObjects.

Example merge_later_wins :
  mergeStyles [Some tw_flex; Some tw_flexCol; None;
               Some {[ "flexDirection" := CssString "row" ]}; Some tw_p2]
  !! "flexDirection" = Some (CssString "row").
Proof. vm_compute. reflexivity. Qed.

Lemma filter_Boolean_omap (k : string) (styles : list (option CSSProperties)) :
  omap (fun style : option CSSProperties => style ≫= (.!! k))
       (List.filter Boolean styles)
  = omap (fun style : option CSSProperties => style ≫= (.!! k)) styles.
Proof.
  induction styles as [|[props|] rest IH]; simpl; [reflexivity| |exact IH].
  destruct (props !! k); [f_equal|]; exact IH.
Qed.

(** The value of a property after [Object.assign]: that of the last source
    that has it, or else that of the target. *)
Lemma Object_assign_lookup (k : string) (sources : list (option CSSProperties)) :
  forall target : CSSProperties,
    Object_assign target sources !! k
    = match last_defined k sources with
      | Some v => Some v
      | None => target !! k
      end.
Proof.
  unfold Object_assign, last_defined.
  induction sources as [|source rest IH] using rev_ind; intros target.
  - reflexivity.
  - rewrite foldl_snoc, omap_app, last_app.
    destruct source as [props|]; simpl.
    + rewrite lookup_union. rewrite IH.
      destruct (props !! k) as [v|] eqn:Ek; simpl;
        destruct (last _); try reflexivity;
        destruct (target !! k); reflexivity.
    + apply IH.
Qed.

Lemma mergeStyles_lookup (k : string) (styles : list (option CSSProperties)) :
  mergeStyles styles !! k = last_defined k styles.
Proof.
  unfold mergeStyles. rewrite Object_assign_lookup.
  unfold last_defined. rewrite filter_Boolean_omap, lookup_empty.
  destruct (last _); reflexivity.
Qed.

(** X1. A property of the merged style has the value that the last style
    object defining it gives it; [undefined] entries are skipped, and a
    property that no style defines is absent. *)
Theorem mergeStyles_last_wins (k : string)
    (styles : list (option CSSProperties)) :
  mergeStyles styles !! k = last_defined k styles
  /\ mergeStyles (styles ++ [None]) = mergeStyles styles
  /\ (forall props : CSSProperties,
        mergeStyles (styles ++ [Some props]) !! k
        = match props !! k with
          | Some v => Some v
          | None => mergeStyles styles !! k
          end).
Proof.
  split; [apply mergeStyles_lookup|]. split.
  - apply map_eq. intros j. rewrite !mergeStyles_lookup.
    unfold last_defined. rewrite omap_app. simpl. rewrite app_nil_r.
    reflexivity.
  - intros props. rewrite !mergeStyles_lookup.
    unfold last_defined. rewrite omap_app, last_app. simpl.
    destruct (props !! k); reflexivity.
Qed.

(** X2. Merging is associative over its argument list: merging two
    merged halves is merging the whole list; and merging nothing gives the
    empty style. *)
Theorem mergeStyles_of_merged (styles1 styles2 : list (option CSSProperties)) :
  mergeStyles (styles1 ++ styles2)
  = mergeStyles [Some (mergeStyles styles1); Some (mergeStyles styles2)]
  /\ mergeStyles [Some (mergeStyles styles1)] = mergeStyles styles1
  /\ mergeStyles [] = ∅.
Proof.
  split; [|split; [|reflexivity]].
  - apply map_eq. intros k. rewrite !mergeStyles_lookup.
    unfold last_defined at 1. rewrite omap_app, last_app.
    fold (last_defined k styles1). fold (last_defined k styles2).
    unfold last_defined at 3. simpl.
    rewrite !mergeStyles_lookup.
    destruct (last_defined k styles1), (last_defined k styles2); reflexivity.
  - apply map_eq. intros k. rewrite !mergeStyles_lookup.
    unfold last_defined at 1. simpl. rewrite mergeStyles_lookup.
    destruct (last_defined k styles1); reflexivity.
Qed.

End StyleObjectsFacts.

Module CnFacts.
Import JS Styles StylesSpec.

Lemma append_assoc (a b c : string) : (a +:+ b) +:+ c = a +:+ (b +:+ c).
Proof.
  induction a as [|ch a IH]; [reflexivity|].
  change (String ch ((a +:+ b) +:+ c) = String ch (a +:+ (b +:+ c))).
  f_equal. exact IH.
Qed.

Lemma truthy_arguments_app (l1 l2 : list ClassValue) :
  truthy_arguments (l1 ++ l2) = truthy_arguments l1 ++ truthy_arguments l2.
Proof.
  induction l1 as [|v rest IH]; [reflexivity|].
  destruct v as [[|c s]| | |]; simpl; rewrite ?IH; reflexivity.
Qed.

Lemma truthy_arguments_nonempty (l : list ClassValue) :
  Forall (fun s => s <> "") (truthy_arguments l).
Proof.
  induction l as [|v rest IH]; [constructor|].
  destruct v as [[|c s]| | |]; simpl; try exact IH.
  constructor; [discriminate|exact IH].
Qed.

Lemma concat_app (sep : string) (a b : list string) :
  a <> [] -> b <> [] ->
  String.concat sep (a ++ b)
  = String.concat sep a +:+ sep +:+ String.concat sep b.
Proof.
  intros Ha Hb. induction a as [|x [|y a'] IH]; [contradiction| |].
  - destruct b as [|z b']; [contradiction|]. reflexivity.
  - change (String.concat sep ((x :: y :: a') ++ b))
      with (x +:+ sep +:+ String.concat sep ((y :: a') ++ b)).
    rewrite IH by discriminate.
    change (String.concat sep (x :: y :: a'))
      with (x +:+ sep +:+ String.concat sep (y :: a')).
    rewrite !append_assoc. reflexivity.
Qed.

Lemma concat_nonempty (sep : string) (l : list string) :
  Forall (fun s => s <> "") l -> l <> [] -> String.concat sep l <> "".
Proof.
  intros Hall Hne. destruct l as [|x [|y l']]; [contradiction| |].
  - inversion Hall; assumption.
  - inversion Hall as [|? ? Hx _]; subst.
    destruct x as [|c x']; [contradiction|]. discriminate.
Qed.

Lemma cn_concat (classes : list ClassValue) :
  cn classes = String.concat " " (truthy_arguments classes).
Proof.
  unfold cn. rewrite StylesFacts.filter_Boolean_truthy.
  apply StylesFacts.join_strings.
Qed.

Lemma cn_of_strings (a b : string) :
  cn [CStr a; CStr b]
  = match a, b with
    | "", _ => b
    | _, "" => a
    | _, _ => a +:+ " " +:+ b
    end.
Proof. destruct a, b; reflexivity. Qed.

(** X3. Calls of [cn] nest: joining the results of two calls is the call
    on the two argument lists together. *)
Theorem cn_nests (classes1 classes2 : list ClassValue) :
  cn [CStr (cn classes1); CStr (cn classes2)] = cn (classes1 ++ classes2).
Proof.
  rewrite cn_of_strings, !cn_concat, truthy_arguments_app.
  pose proof (truthy_arguments_nonempty classes1) as N1.
  pose proof (truthy_arguments_nonempty classes2) as N2.
  destruct (truthy_arguments classes1) as [|a1 k1] eqn:E1.
  - simpl. destruct (String.concat " " (truthy_arguments classes2)); reflexivity.
  - destruct (truthy_arguments classes2) as [|a2 k2] eqn:E2.
    + rewrite app_nil_r.
      destruct (String.concat " " (a1 :: k1)) eqn:E; reflexivity.
    + rewrite concat_app by discriminate.
      pose proof (concat_nonempty " " (a1 :: k1) N1 ltac:(discriminate)) as H1.
      pose proof (concat_nonempty " " (a2 :: k2) N2 ltac:(discriminate)) as H2.
      destruct (String.concat " " (a1 :: k1)); [contradiction|].
      destruct (String.concat " " (a2 :: k2)); [contradiction|].
      reflexivity.
Qed.

End CnFacts.

Module ColorFacts.
Import JS Styles StylesSpec ColorSpec.

Example darken_of_garbage : darken "zebra" (of_Z 10) = "#aN0909".
Proof. vm_compute. reflexivity. Qed.

Example lighten_twice : lighten (lighten "#123" (of_Z 50)) (of_Z 50) = "#254c72".
Proof. vm_compute. reflexivity. Qed.

Lemma hex_value_range (c : ascii) (v : Z) :
  hex_value c = Some v -> 0 <= v <= 15.
Proof.
  intros H. apply StylesFacts.hex_value_table in H. simpl in H.
  repeat (destruct H as [H|H]; [injection H as _ <-; lia|]). destruct H.
Qed.

(** Printing a byte and reading it back. *)
Lemma parseInt16_hex2 (z : Z) : 0 <= z <= 255 -> parseInt16 (hex2 z) = of_Z z.
Proof.
  intros Hz.
  assert (All : forallb (fun n => match parseInt16 (hex2 (Z.of_nat n)) with
                                  | Fin q => Qeq_bool q (inject_Z (Z.of_nat n))
                                             && (Qden q =? 1)%positive
                                  | _ => false
                                  end)
                  (seq 0 256) = true) by (vm_compute; reflexivity).
  rewrite forallb_forall in All.
  specialize (All (Z.to_nat z)). rewrite Z2Nat.id in All by lia.
  assert (Hin : In (Z.to_nat z) (seq 0 256)) by (apply in_seq; lia).
  specialize (All Hin).
  destruct (parseInt16 (hex2 z)) as [[n d]| | |]; try discriminate All.
  apply andb_prop in All as [Hq Hd].
  apply Qeq_bool_eq in Hq. apply Pos.eqb_eq in Hd. simpl in Hd. subst d.
  unfold Qeq in Hq. simpl in Hq. unfold of_Z, inject_Z. f_equal. f_equal. lia.
Qed.

(** The clamping line leaves NaN or a byte. *)
Lemma clamp_channel_cases (c f : num) :
  clamp_channel c f = NaN
  \/ exists z : Z, 0 <= z <= 255 /\ clamp_channel c f = of_Z z.
Proof.
  unfold clamp_channel.
  destruct (Math_floor (mul c f)) as [q| | |] eqn:E.
  - right.
    assert (Hq : exists z, q = inject_Z z).
    { destruct (mul c f) as [q'| | |]; simpl in E; try discriminate E.
      injection E as <-. eauto. }
    destruct Hq as [z ->]. change (Fin (inject_Z z)) with (of_Z z).
    rewrite StylesFacts.Math_max_of_Z, StylesFacts.Math_min_of_Z.
    eexists. split; [|reflexivity]. lia.
  - right. exists 255. split; [lia|reflexivity].
  - right. exists 0. split; [lia|reflexivity].
  - left. reflexivity.
Qed.

Lemma toHex_clamped (c f : num) : channel_text (toHex (clamp_channel c f)).
Proof.
  destruct (clamp_channel_cases c f) as [->|(z & Hz & ->)].
  - left. reflexivity.
  - right. exists z. split; [exact Hz|]. apply StylesFacts.toHex_byte, Hz.
Qed.

Lemma channel_text_length (s : string) :
  channel_text s -> String.length s = 2%nat.
Proof. intros [->|(z & _ & ->)]; reflexivity. Qed.

Lemma length_append (a b : string) :
  String.length (a +:+ b) = (String.length a + String.length b)%nat.
Proof.
  induction a as [|ch a IH]; [reflexivity|].
  change (S (String.length (a +:+ b)) = S (String.length a + String.length b)).
  rewrite IH. reflexivity.
Qed.

(** X4. Whatever the string and the number passed in, [darken] and
    [lighten] return a number sign followed by three groups of two
    characters, each group being two lower-case digits of a byte or the
    letters [aN] (of a channel that is not a number): seven characters. *)
Theorem darken_lighten_shape (hex : string) (percent : num) :
  (exists r g b : string,
     darken hex percent = "#" +:+ r +:+ g +:+ b
     /\ channel_text r /\ channel_text g /\ channel_text b)
  /\ (exists r g b : string,
        lighten hex percent = "#" +:+ r +:+ g +:+ b
        /\ channel_text r /\ channel_text g /\ channel_text b)
  /\ String.length (darken hex percent) = 7%nat
  /\ String.length (lighten hex percent) = 7%nat.
Proof.
  assert (D : exists r g b : string,
             darken hex percent = "#" +:+ r +:+ g +:+ b
             /\ channel_text r /\ channel_text g /\ channel_text b).
  { eexists _, _, _. split; [reflexivity|].
    repeat split;
      apply (toHex_clamped _ (sub (of_Z 1) (div percent (of_Z 100)))). }
  assert (L : exists r g b : string,
             lighten hex percent = "#" +:+ r +:+ g +:+ b
             /\ channel_text r /\ channel_text g /\ channel_text b).
  { eexists _, _, _. split; [reflexivity|].
    repeat split;
      apply (toHex_clamped _ (add (of_Z 1) (div percent (of_Z 100)))). }
  split; [exact D|]. split; [exact L|].
  destruct D as (r & g & b & -> & Hr & Hg & Hb).
  destruct L as (r' & g' & b' & -> & Hr' & Hg' & Hb').
  rewrite !length_append.
  rewrite (channel_text_length _ Hr), (channel_text_length _ Hg),
    (channel_text_length _ Hb), (channel_text_length _ Hr'),
    (channel_text_length _ Hg'), (channel_text_length _ Hb').
  split; reflexivity.
Qed.

(** *** Well-formed inputs *)

Lemma inject_Z_nonneg (c : Z) : 0 <= c -> (0 <= inject_Z c)%Q.
Proof. intros Hc. change (inject_Z 0 <= inject_Z c)%Q. rewrite <- Zle_Qle. exact Hc. Qed.

Lemma scaled_mono (c : Z) (f f' : Q) :
  0 <= c -> (f <= f')%Q -> scaled c f <= scaled c f'.
Proof.
  intros Hc Hf. unfold scaled, Float64.fmul.
  assert (H : Qfloor (Float64.fl (inject_Z c * f))
              <= Qfloor (Float64.fl (inject_Z c * f'))).
  { apply Qfloor_resp_le, Float64Facts.fl_mono.
    pose proof (inject_Z_nonneg c Hc). nra. }
  lia.
Qed.

Lemma scaled_one (c : Z) (f : Q) : 0 <= c <= 255 -> (f == 1)%Q -> scaled c f = c.
Proof.
  intros Hc Hf. unfold scaled, Float64.fmul.
  rewrite (Float64Facts.fl_comp (inject_Z c * f) (inject_Z c))
    by (rewrite Hf; ring).
  rewrite (Float64Facts.fl_byte c Hc), Qfloor_Z. lia.
Qed.

Lemma scaled_nonpositive (c : Z) (f : Q) :
  0 <= c -> (f <= 0)%Q -> scaled c f = 0.
Proof.
  intros Hc Hf.
  pose proof (scaled_mono c f 0 Hc Hf) as H.
  pose proof (StylesFacts.scaled_range c f) as R.
  assert (Z0 : scaled c 0 = 0).
  { unfold scaled, Float64.fmul.
    rewrite (Float64Facts.fl_comp (inject_Z c * 0) (inject_Z 0)) by ring.
    reflexivity. }
  lia.
Qed.

(** The factors follow the percentage. *)
Lemma fdiv_100_mono (p q : Q) :
  (p <= q)%Q -> (Float64.fdiv p 100 <= Float64.fdiv q 100)%Q.
Proof.
  intros H. apply Float64Facts.fl_mono.
  unfold Qdiv. change (/ 100)%Q with (1 # 100)%Q. lra.
Qed.

Lemma darken_factor_mono (p q : Q) :
  (p <= q)%Q -> (darken_factor q <= darken_factor p)%Q.
Proof.
  intros H. apply Float64Facts.fl_mono.
  pose proof (fdiv_100_mono p q H). lra.
Qed.

Lemma lighten_factor_mono (p q : Q) :
  (p <= q)%Q -> (lighten_factor p <= lighten_factor q)%Q.
Proof.
  intros H. apply Float64Facts.fl_mono.
  pose proof (fdiv_100_mono p q H). lra.
Qed.

Lemma darken_factor_zero : darken_factor 0 = 1%Q.
Proof. vm_compute. reflexivity. Qed.

Lemma lighten_factor_zero : lighten_factor 0 = 1%Q.
Proof. vm_compute. reflexivity. Qed.

Lemma darken_factor_hundred : darken_factor 100 = 0%Q.
Proof. vm_compute. reflexivity. Qed.

Lemma finite_percent_zero : finite_percent 0.
Proof. apply Qle_bool_iff. vm_compute. reflexivity. Qed.

Lemma finite_percent_opp (p : Q) : finite_percent p -> finite_percent (- p).
Proof. unfold finite_percent. rewrite Float64Facts.Qabs_opp_eq. auto. Qed.

Lemma finite_percent_below (p q : Q) :
  (0 <= p)%Q -> (p <= q)%Q -> finite_percent q -> finite_percent p.
Proof.
  unfold finite_percent. intros H0 Hpq Hq.
  rewrite Qabs_pos in Hq by lra. rewrite Qabs_pos by exact H0. lra.
Qed.

(** What both functions make of a well-formed input: its channels are
    bytes, and the result is the colour string of the scaled channels. *)
Lemma scale_well_formed (hash : bool) (digits : list ascii) :
  hex_digits_input digits ->
  exists r g b : Z,
    channels digits = Some (r, g, b)
    /\ (0 <= r <= 255 /\ 0 <= g <= 255 /\ 0 <= b <= 255)
    /\ (channel_of 0 (color_input hash digits) = of_Z r
        /\ channel_of 1 (color_input hash digits) = of_Z g
        /\ channel_of 2 (color_input hash digits) = of_Z b)
    /\ forall f : Q,
         scale_color (normalize_hex (color_input hash digits)) (Fin f)
         = color_string (scaled r f) (scaled g f) (scaled b f).
Proof.
  intros [Hhex Hlen].
  assert (Hv : forall c, is_hex c -> hex_value c = Some (digit_value c)).
  { intros c [v Hc]. unfold digit_value. rewrite Hc. reflexivity. }
  destruct Hlen as [Hlen|Hlen].
  - destruct digits as [|d1 [|d2 [|d3 [|? ?]]]]; try discriminate Hlen.
    inversion_clear Hhex as [|? ? H1 Hhex'].
    inversion_clear Hhex' as [|? ? H2 Hhex''].
    inversion_clear Hhex'' as [|? ? H3 _].
    apply Hv in H1, H2, H3.
    pose proof (hex_value_range _ _ H1). pose proof (hex_value_range _ _ H2).
    pose proof (hex_value_range _ _ H3).
    eexists _, _, _. split; [reflexivity|]. split; [lia|].
    unfold channel_of.
    rewrite (StylesFacts.normalize_hex_three _ _ _ _ _ H1).
    split.
    + split; [|split].
      * apply (StylesFacts.parseInt16_pair _ _ _ _ H1 H1).
      * apply (StylesFacts.parseInt16_pair _ _ _ _ H2 H2).
      * apply (StylesFacts.parseInt16_pair _ _ _ _ H3 H3).
    + intros f.
      apply (StylesFacts.scale_color_finite _ _ _ _ _ _ _ _ _ _ _ _ _
               H1 H1 H2 H2 H3 H3).
  - destruct digits as [|d1 [|d2 [|d3 [|d4 [|d5 [|d6 [|? ?]]]]]]];
      try discriminate Hlen.
    inversion_clear Hhex as [|? ? H1 Hhex1].
    inversion_clear Hhex1 as [|? ? H2 Hhex2].
    inversion_clear Hhex2 as [|? ? H3 Hhex3].
    inversion_clear Hhex3 as [|? ? H4 Hhex4].
    inversion_clear Hhex4 as [|? ? H5 Hhex5].
    inversion_clear Hhex5 as [|? ? H6 _].
    apply Hv in H1, H2, H3, H4, H5, H6.
    pose proof (hex_value_range _ _ H1). pose proof (hex_value_range _ _ H2).
    pose proof (hex_value_range _ _ H3). pose proof (hex_value_range _ _ H4).
    pose proof (hex_value_range _ _ H5). pose proof (hex_value_range _ _ H6).
    eexists _, _, _. split; [reflexivity|]. split; [lia|].
    unfold channel_of.
    rewrite (StylesFacts.normalize_hex_six _ _ _ _ _ _ _ _ H1).
    split.
    + split; [|split].
      * apply (StylesFacts.parseInt16_pair _ _ _ _ H1 H2).
      * apply (StylesFacts.parseInt16_pair _ _ _ _ H3 H4).
      * apply (StylesFacts.parseInt16_pair _ _ _ _ H5 H6).
    + intros f.
      apply (StylesFacts.scale_color_finite _ _ _ _ _ _ _ _ _ _ _ _ _
               H1 H2 H3 H4 H5 H6).
Qed.

(** Reading the channels of a result back. *)
Lemma channel_of_color_string (r g b : Z) :
  0 <= r <= 255 -> 0 <= g <= 255 -> 0 <= b <= 255 ->
  channel_of 0 (color_string r g b) = of_Z r
  /\ channel_of 1 (color_string r g b) = of_Z g
  /\ channel_of 2 (color_string r g b) = of_Z b.
Proof.
  intros Hr Hg Hb.
  split; [|split].
  - change (channel_of 0 (color_string r g b)) with (parseInt16 (hex2 r)).
    apply parseInt16_hex2, Hr.
  - change (channel_of 1 (color_string r g b)) with (parseInt16 (hex2 g)).
    apply parseInt16_hex2, Hg.
  - change (channel_of 2 (color_string r g b)) with (parseInt16 (hex2 b)).
    apply parseInt16_hex2, Hb.
Qed.

Lemma scale_color_string (r g b : Z) (f : Q) :
  0 <= r <= 255 -> 0 <= g <= 255 -> 0 <= b <= 255 ->
  scale_color (normalize_hex (color_string r g b)) (Fin f)
  = color_string (scaled r f) (scaled g f) (scaled b f).
Proof.
  intros Hr Hg Hb.
  destruct (channel_of_color_string r g b Hr Hg Hb) as (Er & Eg & Eb).
  change (parseInt16 (substring 0 2 (normalize_hex (color_string r g b)))
          = of_Z r) in Er.
  change (parseInt16 (substring 2 4 (normalize_hex (color_string r g b)))
          = of_Z g) in Eg.
  change (parseInt16 (substring 4 6 (normalize_hex (color_string r g b)))
          = of_Z b) in Eb.
  unfold scale_color. rewrite Er, Eg, Eb. rewrite !StylesFacts.clamp_channel_finite.
  rewrite !StylesFacts.toHex_byte by apply StylesFacts.scaled_range.
  reflexivity.
Qed.

(** X5. A percentage of 0 returns the colour itself in its normal form:
    the number sign and the six lower-case digits of its channels, from
    [darken] and [lighten] alike. *)
Theorem zero_percent_normalizes (hash : bool) (digits : list ascii) :
  hex_digits_input digits ->
  exists r g b : Z,
    channels digits = Some (r, g, b)
    /\ darken (color_input hash digits) (Fin 0) = color_string r g b
    /\ lighten (color_input hash digits) (Fin 0) = color_string r g b.
Proof.
  intros Hin.
  destruct (scale_well_formed hash digits Hin)
    as (r & g & b & Hc & (Hr & Hg & Hb) & _ & Hs).
  exists r, g, b. split; [exact Hc|].
  rewrite (StylesFacts.darken_finite _ _ finite_percent_zero),
    (StylesFacts.lighten_finite _ _ finite_percent_zero), !Hs.
  rewrite darken_factor_zero, lighten_factor_zero.
  rewrite !(scaled_one _ 1 Hr (Qeq_refl 1)), !(scaled_one _ 1 Hg (Qeq_refl 1)),
    !(scaled_one _ 1 Hb (Qeq_refl 1)).
  split; reflexivity.
Qed.

Lemma zero_percent_normalizes_witness :
  exists r g b : Z,
    channels ["A"; "b"; "C"; "1"; "2"; "3"]%char = Some (r, g, b)
    /\ darken "AbC123" (Fin 0) = color_string r g b
    /\ lighten "AbC123" (Fin 0) = color_string r g b.
Proof.
  apply (zero_percent_normalizes false ["A"; "b"; "C"; "1"; "2"; "3"]%char).
  split; [|right; reflexivity].
  repeat constructor; vm_compute; eexists; reflexivity.
Defined.

(** X6. A result of either function on a well-formed input and a finite
    percentage is in normal form: passing it through either function again
    with 0 percent gives it back, and the channels read from it are the ones
    it was printed from, which are the channels of the input scaled in the
    arithmetic of doubles. *)
Theorem results_are_normal_forms (hash : bool) (digits : list ascii) (p : Q) :
  hex_digits_input digits -> finite_percent p ->
  let dark := darken (color_input hash digits) (Fin p) in
  let light := lighten (color_input hash digits) (Fin p) in
  darken dark (Fin 0) = dark /\ lighten dark (Fin 0) = dark
  /\ darken light (Fin 0) = light /\ lighten light (Fin 0) = light
  /\ exists r g b : Z,
       channels digits = Some (r, g, b)
       /\ channel_of 0 dark = of_Z (scaled r (darken_factor p))
       /\ channel_of 1 dark = of_Z (scaled g (darken_factor p))
       /\ channel_of 2 dark = of_Z (scaled b (darken_factor p))
       /\ channel_of 0 light = of_Z (scaled r (lighten_factor p))
       /\ channel_of 1 light = of_Z (scaled g (lighten_factor p))
       /\ channel_of 2 light = of_Z (scaled b (lighten_factor p)).
Proof.
  intros Hin Hp dark light. subst dark light.
  destruct (scale_well_formed hash digits Hin)
    as (r & g & b & Hc & _ & _ & Hs).
  rewrite (StylesFacts.darken_finite (color_input hash digits) _ Hp),
    (StylesFacts.lighten_finite (color_input hash digits) _ Hp), !Hs.
  assert (N : forall x y z : Z,
             0 <= x <= 255 -> 0 <= y <= 255 -> 0 <= z <= 255 ->
             darken (color_string x y z) (Fin 0) = color_string x y z
             /\ lighten (color_string x y z) (Fin 0) = color_string x y z).
  { intros x y z Hx Hy Hz.
    rewrite (StylesFacts.darken_finite _ _ finite_percent_zero),
      (StylesFacts.lighten_finite _ _ finite_percent_zero).
    rewrite !scale_color_string by assumption.
    rewrite darken_factor_zero, lighten_factor_zero.
    rewrite !(scaled_one _ 1 Hx (Qeq_refl 1)), !(scaled_one _ 1 Hy (Qeq_refl 1)),
      !(scaled_one _ 1 Hz (Qeq_refl 1)).
    split; reflexivity. }
  destruct (N _ _ _ (StylesFacts.scaled_range r (darken_factor p))
              (StylesFacts.scaled_range g (darken_factor p))
              (StylesFacts.scaled_range b (darken_factor p))) as [N1 N2].
  destruct (N _ _ _ (StylesFacts.scaled_range r (lighten_factor p))
              (StylesFacts.scaled_range g (lighten_factor p))
              (StylesFacts.scaled_range b (lighten_factor p))) as [N3 N4].
  destruct (channel_of_color_string _ _ _
              (StylesFacts.scaled_range r (darken_factor p))
              (StylesFacts.scaled_range g (darken_factor p))
              (StylesFacts.scaled_range b (darken_factor p)))
    as (D0 & D1 & D2).
  destruct (channel_of_color_string _ _ _
              (StylesFacts.scaled_range r (lighten_factor p))
              (StylesFacts.scaled_range g (lighten_factor p))
              (StylesFacts.scaled_range b (lighten_factor p)))
    as (L0 & L1 & L2).
  split; [exact N1|]. split; [exact N2|]. split; [exact N3|].
  split; [exact N4|].
  exists r, g, b. auto 10.
Qed.

Lemma results_are_normal_forms_witness :
  darken (darken "#aaaaaa" (Fin 30)) (Fin 0) = darken "#aaaaaa" (Fin 30)
  /\ exists r g b : Z,
       channels ["a"; "a"; "a"; "a"; "a"; "a"]%char = Some (r, g, b)
       /\ channel_of 0 (darken "#aaaaaa" (Fin 30)) = of_Z (scaled r (darken_factor 30))
       /\ channel_of 1 (darken "#aaaaaa" (Fin 30)) = of_Z (scaled g (darken_factor 30))
       /\ channel_of 2 (darken "#aaaaaa" (Fin 30)) = of_Z (scaled b (darken_factor 30))
       /\ channel_of 0 (lighten "#aaaaaa" (Fin 30)) = of_Z (scaled r (lighten_factor 30))
       /\ channel_of 1 (lighten "#aaaaaa" (Fin 30)) = of_Z (scaled g (lighten_factor 30))
       /\ channel_of 2 (lighten "#aaaaaa" (Fin 30)) = of_Z (scaled b (lighten_factor 30)).
Proof.
  assert (Hin : hex_digits_input ["a"; "a"; "a"; "a"; "a"; "a"]%char).
  { split; [|right; reflexivity].
    repeat constructor; vm_compute; eexists; reflexivity. }
  assert (Hp : finite_percent 30)
    by (apply Qle_bool_iff; vm_compute; reflexivity).
  pose proof (results_are_normal_forms true ["a"; "a"; "a"; "a"; "a"; "a"]%char
                30 Hin Hp) as H.
  split; [exact (proj1 H)|exact (proj2 (proj2 (proj2 (proj2 H))))].
Defined.

(** The channel that is read back from [darken('#aaaaaa', 30)] is 118:
    the product of doubles is below 119, which the real product is. *)
Example read_back_rounded_channel :
  channel_of 0 (darken "#aaaaaa" (Fin 30)) = of_Z 118
  /\ scaled 170 (darken_factor 30) = 118.
Proof. vm_compute. split; reflexivity. Qed.

(** X7. On a well-formed input and for finite percentages [0 <= p <= q]:
    [darken] never raises a channel and a larger percentage gives a channel
    that is not larger; [lighten] never lowers a channel and a larger
    percentage gives a channel that is not smaller. The channels are those
    that the functions themselves read from the strings. *)
Theorem darken_lowers_lighten_raises (hash : bool) (digits : list ascii)
    (p q : Q) (i : nat) :
  hex_digits_input digits -> (0 <= p)%Q -> (p <= q)%Q -> finite_percent q ->
  (i < 3)%nat ->
  exists c dp dq lp lq : Z,
    channel_of i (color_input hash digits) = of_Z c
    /\ channel_of i (darken (color_input hash digits) (Fin p)) = of_Z dp
    /\ channel_of i (darken (color_input hash digits) (Fin q)) = of_Z dq
    /\ channel_of i (lighten (color_input hash digits) (Fin p)) = of_Z lp
    /\ channel_of i (lighten (color_input hash digits) (Fin q)) = of_Z lq
    /\ 0 <= dq <= dp /\ dp <= c /\ c <= lp /\ lp <= lq <= 255.
Proof.
  intros Hin Hp Hpq Hq Hi.
  pose proof (finite_percent_below p q Hp Hpq Hq) as Hfp.
  destruct (scale_well_formed hash digits Hin)
    as (r & g & b & _ & (Hr & Hg & Hb) & (C0 & C1 & C2) & Hs).
  rewrite !(StylesFacts.darken_finite _ _ Hfp), !(StylesFacts.darken_finite _ _ Hq),
    !(StylesFacts.lighten_finite _ _ Hfp), !(StylesFacts.lighten_finite _ _ Hq), !Hs.
  assert (F : forall c : Z, 0 <= c <= 255 ->
             0 <= scaled c (darken_factor q) <= scaled c (darken_factor p)
             /\ scaled c (darken_factor p) <= c
             /\ c <= scaled c (lighten_factor p)
             /\ scaled c (lighten_factor p) <= scaled c (lighten_factor q) <= 255).
  { intros c Hc.
    pose proof (StylesFacts.scaled_range c (darken_factor q)).
    pose proof (StylesFacts.scaled_range c (lighten_factor q)).
    assert (scaled c (darken_factor q) <= scaled c (darken_factor p))
      by (apply scaled_mono; [lia|apply darken_factor_mono, Hpq]).
    assert (scaled c (lighten_factor p) <= scaled c (lighten_factor q))
      by (apply scaled_mono; [lia|apply lighten_factor_mono, Hpq]).
    assert (scaled c (darken_factor p) <= scaled c 1).
    { apply scaled_mono; [lia|]. rewrite <- darken_factor_zero.
      apply darken_factor_mono, Hp. }
    assert (scaled c 1 <= scaled c (lighten_factor p)).
    { apply scaled_mono; [lia|]. rewrite <- lighten_factor_zero.
      apply lighten_factor_mono, Hp. }
    rewrite (scaled_one c 1 Hc) in * by reflexivity. lia. }
  pose proof (fun c f => StylesFacts.scaled_range c f) as R.
  destruct (channel_of_color_string _ _ _ (R r (darken_factor p))
              (R g (darken_factor p)) (R b (darken_factor p)))
    as (Dp0 & Dp1 & Dp2).
  destruct (channel_of_color_string _ _ _ (R r (darken_factor q))
              (R g (darken_factor q)) (R b (darken_factor q)))
    as (Dq0 & Dq1 & Dq2).
  destruct (channel_of_color_string _ _ _ (R r (lighten_factor p))
              (R g (lighten_factor p)) (R b (lighten_factor p)))
    as (Lp0 & Lp1 & Lp2).
  destruct (channel_of_color_string _ _ _ (R r (lighten_factor q))
              (R g (lighten_factor q)) (R b (lighten_factor q)))
    as (Lq0 & Lq1 & Lq2).
  destruct i as [|[|[|i]]]; [| | |lia].
  - eexists _, _, _, _, _. repeat (split; [eassumption|]). apply (F r Hr).
  - eexists _, _, _, _, _. repeat (split; [eassumption|]). apply (F g Hg).
  - eexists _, _, _, _, _. repeat (split; [eassumption|]). apply (F b Hb).
Qed.

Lemma darken_lowers_lighten_raises_witness :
  exists c dp dq lp lq : Z,
    channel_of 1 "#336699" = of_Z c
    /\ channel_of 1 (darken "#336699" (Fin 10)) = of_Z dp
    /\ channel_of 1 (darken "#336699" (Fin 40)) = of_Z dq
    /\ channel_of 1 (lighten "#336699" (Fin 10)) = of_Z lp
    /\ channel_of 1 (lighten "#336699" (Fin 40)) = of_Z lq
    /\ 0 <= dq <= dp /\ dp <= c /\ c <= lp /\ lp <= lq <= 255.
Proof.
  apply (darken_lowers_lighten_raises true
           ["3"; "3"; "6"; "6"; "9"; "9"]%char 10 40 1).
  - split; [|right; reflexivity].
    repeat constructor; vm_compute; eexists; reflexivity.
  - discriminate.
  - discriminate.
  - apply Qle_bool_iff. vm_compute. reflexivity.
  - lia.
Defined.

(** X8. On a well-formed input, darkening by a finite percentage of 100
    or more gives black, and so does lightening by minus that percentage. *)
Theorem full_darkening_is_black (hash : bool) (digits : list ascii) (p : Q) :
  hex_digits_input digits -> (100 <= p)%Q -> finite_percent p ->
  darken (color_input hash digits) (Fin p) = "#000000"
  /\ lighten (color_input hash digits) (Fin (- p)) = "#000000".
Proof.
  intros Hin Hp Hfp.
  destruct (scale_well_formed hash digits Hin)
    as (r & g & b & _ & (Hr & Hg & Hb) & _ & Hs).
  rewrite (StylesFacts.darken_finite _ _ Hfp),
    (StylesFacts.lighten_finite _ _ (finite_percent_opp _ Hfp)), !Hs.
  assert (D : (darken_factor p <= 0)%Q).
  { rewrite <- darken_factor_hundred. apply darken_factor_mono, Hp. }
  assert (L : (lighten_factor (- p) <= 0)%Q).
  { assert (E : lighten_factor (- 100) = 0%Q) by (vm_compute; reflexivity).
    rewrite <- E. apply lighten_factor_mono. lra. }
  rewrite !(scaled_nonpositive _ _ (proj1 Hr) D),
    !(scaled_nonpositive _ _ (proj1 Hg) D),
    !(scaled_nonpositive _ _ (proj1 Hb) D).
  rewrite !(scaled_nonpositive _ _ (proj1 Hr) L),
    !(scaled_nonpositive _ _ (proj1 Hg) L),
    !(scaled_nonpositive _ _ (proj1 Hb) L).
  split; reflexivity.
Qed.

Lemma full_darkening_is_black_witness :
  darken "c0ffee" (Fin 150) = "#000000"
  /\ lighten "c0ffee" (Fin (- 150)) = "#000000".
Proof.
  apply (full_darkening_is_black false ["c"; "0"; "f"; "f"; "e"; "e"]%char 150).
  - split; [|right; reflexivity].
    repeat constructor; vm_compute; eexists; reflexivity.
  - discriminate.
  - apply Qle_bool_iff. vm_compute. reflexivity.
Defined.

(** The infinite percentage is not covered: a channel 0 times the
    infinite factor is not a number. *)
Example infinite_darkening_is_not_black :
  darken "#0f0" PInf = "#aN00aN" /\ lighten "#0f0" NInf = "#aN00aN".
Proof. vm_compute. split; reflexivity. Qed.

(** X9. Lightening by [- p] is darkening by [p], for every string and
    every finite percentage. *)
Theorem lighten_negative_is_darken (hex : string) (p : Q) :
  lighten hex (Fin (- p)) = darken hex (Fin p).
Proof.
  change (lighten hex (Fin (- p)))
    with (scale_color (normalize_hex hex)
            (add (of_Z 1) (div (Fin (- p)) (of_Z 100)))).
  rewrite StylesFacts.div_100_opp. reflexivity.
Qed.

(** X10. After a number sign, three characters stand for the six that
    double each of them, whatever the characters and the percentage. *)
Theorem shorthand_is_doubled (a b c : ascii) (percent : num) :
  darken (String "#" (str [a; b; c])) percent
  = darken (String "#" (str [a; a; b; b; c; c])) percent
  /\ lighten (String "#" (str [a; b; c])) percent
     = lighten (String "#" (str [a; a; b; b; c; c])) percent.
Proof. split; reflexivity. Qed.

End ColorFacts.

Module ThemeMoreFacts.
Import ThemeContext.

Lemma mount_after_setTheme (dflt t : Theme) (key : string) (w : World)
    (st : gmap string string) :
  localStorage w = Some st ->
  themeState (mount dflt key (localStorage (provider_setTheme key t w))) = t.
Proof.
  intros Hst. unfold provider_setTheme, setItem, setThemeState, mount,
    load_effect. simpl. rewrite Hst. simpl. rewrite lookup_insert_eq.
  destruct t; reflexivity.
Qed.

(** X11. What [setTheme] or [toggleTheme] stores in a browser is what a
    later mount under the same key starts from, whatever its default. *)
Theorem stored_theme_survives_reload (key : string) (dflt newTheme cell : Theme)
    (st : gmap string string) (w0 : World) :
  let w := {| localStorage := Some st; themeState := cell |} in
  let ctx := render key w0 in
  themeState (mount dflt key (localStorage (setTheme ctx newTheme w))) = newTheme
  /\ themeState (mount dflt key (localStorage (toggleTheme ctx w)))
     = match theme ctx with light => dark | dark => light end.
Proof.
  intros w ctx. split.
  - apply (mount_after_setTheme dflt newTheme key w st eq_refl).
  - apply (mount_after_setTheme dflt _ key w st eq_refl).
Qed.

(** X12. Two toggles with a render between them give the theme back;
    two toggles through the functions of one render are one toggle. *)
Theorem toggle_twice (key : string) (w : World) :
  let w1 := toggleTheme (render key w) w in
  themeState (toggleTheme (render key w1) w1) = themeState w
  /\ themeState w1 <> themeState w
  /\ toggleTheme (render key w) w1 = w1.
Proof.
  destruct w as [[st|] []]; simpl; unfold provider_toggleTheme,
    provider_setTheme, setItem, setThemeState; simpl;
    repeat split; try discriminate; rewrite ?insert_insert_eq; reflexivity.
Qed.

(** X13. [setTheme] writes the one key: every other key of the storage
    keeps its value; without a window there is no storage before or after,
    the state is set all the same, and a mount keeps the default theme. *)
Theorem setTheme_writes_one_key (key other : string) (t dflt cell : Theme)
    (st : gmap string string) :
  other <> key ->
  (exists st',
     localStorage (provider_setTheme key t
                     {| localStorage := Some st; themeState := cell |})
     = Some st'
     /\ st' !! other = st !! other)
  /\ provider_setTheme key t {| localStorage := None; themeState := cell |}
     = {| localStorage := None; themeState := t |}
  /\ mount dflt key None = {| localStorage := None; themeState := dflt |}.
Proof.
  intros Hne. split; [|split; reflexivity].
  eexists. split; [reflexivity|].
  apply lookup_insert_ne. congruence.
Qed.

Lemma setTheme_writes_one_key_witness :
  exists st',
    localStorage (provider_setTheme "feeby-theme" dark
                    {| localStorage := Some {[ "lang" := "en" ]};
                       themeState := light |})
    = Some st'
    /\ st' !! "lang" = ({[ "lang" := "en" ]} : gmap string string) !! "lang".
Proof.
  refine (proj1 (setTheme_writes_one_key "feeby-theme" "lang" dark light light
                   {[ "lang" := "en" ]} _)).
  discriminate.
Defined.

End ThemeMoreFacts.

Module SeedMoreFacts.
Import Seed SeedSpec.

Lemma run_counts (c : Component) (es : list Event) :
  forall s s', run c s es = Some s' ->
               (seed s' == seed s + inject_Z (ticks es))%Q.
Proof.
  induction es as [|e es IH]; intros s s' Hrun; simpl in Hrun.
  - injection Hrun as <-. simpl. ring.
  - destruct e as [|prop]; simpl in Hrun.
    + destruct (timer s) as [period|]; [|discriminate Hrun].
      rewrite (IH _ _ Hrun). cbn [seed ticks]. rewrite inject_Z_plus. ring.
    + rewrite (IH _ _ Hrun). cbn [seed ticks]. ring.
Qed.

(** X14. In every run the seed is its initial value plus the number of
    ticks so far: a render with new props never resets it. *)
Theorem seed_counts_ticks (c : Component) (prop : option bool) (draw : Q)
    (es : list Event) (s : State) :
  run c (mount c prop draw) es = Some s ->
  (seed s == initial_seed c draw + inject_Z (ticks es))%Q.
Proof. intros Hrun. apply (run_counts c es _ _ Hrun). Qed.

Lemma seed_counts_ticks_witness :
  (seed {| seed := 0 + 1 + 1; timer := None |}
   == initial_seed Tape 0 + inject_Z (ticks [Tick; Props (Some true); Tick;
                                             Props (Some false)]))%Q.
Proof.
  apply (seed_counts_ticks Tape (Some true) 0
           [Tick; Props (Some true); Tick; Props (Some false)]).
  reflexivity.
Defined.

(** X15. After every run the interval is the one that the effect sets up
    for the [isBouncy] of the last render, and a further tick can happen
    exactly when that interval exists. *)
Theorem timer_follows_last_props (c : Component) (prop : option bool)
    (draw : Q) (es : list Event) (s : State) :
  run c (mount c prop draw) es = Some s ->
  timer s = seed_effect c (isBouncy c (last_prop prop es))
  /\ (is_Some (step c s Tick)
      <-> is_Some (seed_effect c (isBouncy c (last_prop prop es)))).
Proof.
  intros Hrun.
  pose proof (SeedFacts.run_timer c es prop (mount c prop draw) s eq_refl Hrun)
    as Ht.
  split; [exact Ht|]. unfold step. rewrite Ht.
  destruct (seed_effect c (isBouncy c (last_prop prop es))); split;
    intros [x Hx]; try discriminate Hx; eauto.
Qed.

Lemma timer_follows_last_props_witness :
  timer {| seed := 0 + 1; timer := None |}
  = seed_effect StickyNote
      (isBouncy StickyNote (last_prop (Some true) [Tick; Props None])).
Proof.
  refine (proj1 (timer_follows_last_props StickyNote (Some true) 0
                   [Tick; Props None] {| seed := 0 + 1; timer := None |} _)).
  reflexivity.
Defined.

End SeedMoreFacts.

Module DoodleMoreFacts.
Import ThemeContext DoodlePad DoodleCanvas.

Example click_is_not_drawn :
  draw_effect true 300 (Some source_over) light
    [ {| points := [(1, 1)]%Q; mode := pen |};
      {| points := [(2, 2); (3, 3)]%Q; mode := eraser |};
      {| points := [(4, 4); (5, 5)]%Q; mode := pen |} ]
  = Some {| composite := source_over;
            drawn := [ {| path_points := [(2, 2); (3, 3)]%Q;
                          path_stroke := "#000";
                          path_strokeWidth := 20;
                          path_roughness := 3 # 2;
                          path_composite := destination_out |};
                       {| path_points := [(4, 4); (5, 5)]%Q;
                          path_stroke := "#000";
                          path_strokeWidth := 3;
                          path_roughness := 3 # 2;
                          path_composite := source_over |} ] |}.
Proof. reflexivity. Qed.

(** A handler fails only on a state that is drawing without a stroke. *)
Lemma handle_succeeds (e : Event) (s : State) :
  drawing_has_stroke s -> exists s', handle e s = Some s'.
Proof.
  intros Hinv. destruct e as [pos|pos| | | |m]; simpl; eauto.
  unfold handleMouseMove. destruct (isDrawing s) eqn:Ed; simpl; [|eauto].
  specialize (Hinv Ed).
  destruct (strokes s) as [|st0 l] eqn:El using rev_ind; [contradiction|].
  rewrite DoodlePadFacts.push_to_last_snoc. eauto.
Qed.

Lemma run_without_clear (es : list Event) :
  Forall (fun e => e <> Clear) es ->
  forall s, drawing_has_stroke s -> strokes_well_formed s ->
            exists s', run es s = Some s'
                       /\ drawing_has_stroke s' /\ strokes_well_formed s'.
Proof.
  induction 1 as [|e es He _ IH]; intros s Hd Hw; simpl.
  - eauto.
  - destruct (handle_succeeds e s Hd) as [s1 H1]. rewrite H1.
    apply IH.
    + apply (DoodlePadFacts.handle_keeps_drawing_stroke e s s1 He Hd H1).
    + apply (DoodlePadFacts.handle_keeps_well_formed e s s1 Hw H1).
Qed.

(** X16. From the initial state, no sequence of mouse and tool events
    without the clear action ever fails, and it ends in a state where every
    stroke has a point and drawing implies a stroke to draw on. *)
Theorem no_failure_without_clear (es : list Event) :
  Forall (fun e => e <> Clear) es ->
  exists s, run es initial = Some s
            /\ drawing_has_stroke s /\ strokes_well_formed s.
Proof.
  intros Hes. apply (run_without_clear es Hes initial).
  - intros H. discriminate H.
  - constructor.
Qed.

Lemma no_failure_without_clear_witness :
  exists s, run [MouseMove (0, 0); MouseDown (1, 1); MouseMove (2, 2);
                 MouseLeave; MouseMove (3, 3); SetMode eraser;
                 MouseDown (4, 4)]%Q initial = Some s
            /\ drawing_has_stroke s /\ strokes_well_formed s.
Proof.
  apply no_failure_without_clear. repeat constructor; discriminate.
Defined.

Lemma push_to_last_length (pos : Q * Q) (l l' : list Stroke) :
  push_to_last pos l = Some l' -> length l' = length l.
Proof.
  unfold push_to_last. destruct (last l); [|discriminate].
  intros H. injection H as <-. apply length_insert.
Qed.

Lemma run_stroke_count (es : list Event) :
  forall s s', run es s = Some s' ->
               length (strokes s') = downs_since_clear es (length (strokes s)).
Proof.
  induction es as [|e es IH]; intros s s' Hrun; simpl in Hrun.
  - injection Hrun as <-. reflexivity.
  - destruct (handle e s) as [s1|] eqn:He; [|discriminate Hrun].
    rewrite (IH _ _ Hrun).
    destruct e as [pos|pos| | | |m]; simpl in He;
      try (injection He as <-; simpl; try reflexivity).
    + rewrite length_app. simpl. f_equal. lia.
    + unfold handleMouseMove in He.
      destruct (isDrawing s); simpl in He; [|injection He as <-; reflexivity].
      destruct (push_to_last pos (strokes s)) as [l'|] eqn:Ep; [|discriminate He].
      injection He as <-. simpl. rewrite (push_to_last_length _ _ _ Ep).
      reflexivity.
Qed.

(** X17. After every run that does not fail, the list holds one stroke
    for each mouse-down since the last clear action: moves, releases and
    tool changes add and remove none. *)
Theorem one_stroke_per_mouse_down (es : list Event) (s : State) :
  run es initial = Some s ->
  length (strokes s) = downs_since_clear es 0.
Proof. intros Hrun. apply (run_stroke_count es initial s Hrun). Qed.

Lemma one_stroke_per_mouse_down_witness :
  length [ {| points := [(7, 7)]%Q; mode := pen |} ]
  = downs_since_clear [MouseDown (1, 1); MouseUp; MouseDown (2, 2); MouseUp;
                       Clear; MouseDown (7, 7)]%Q 0.
Proof.
  apply (one_stroke_per_mouse_down
           [MouseDown (1, 1); MouseUp; MouseDown (2, 2); MouseUp;
            Clear; MouseDown (7, 7)]%Q
           {| isDrawing := true;
              strokes := [ {| points := [(7, 7)]%Q; mode := pen |} ];
              tool := pen |}).
  reflexivity.
Defined.

Lemma draw_strokes_from_source_over (theme : Theme) (strokes : list Stroke) :
  forall calls : list LinearPath,
    foldl (draw_stroke theme) {| composite := source_over; drawn := calls |}
          strokes
    = {| composite := source_over;
         drawn := calls ++ map (stroke_call theme) (List.filter has_line strokes) |}.
Proof.
  induction strokes as [|st rest IH]; intros calls; simpl.
  - rewrite app_nil_r. reflexivity.
  - unfold draw_stroke at 2. unfold has_line at 1.
    destruct (1 <? length (points st))%nat.
    + destruct st as [pts []]; simpl; rewrite IH, <- app_assoc; reflexivity.
    + apply IH.
Qed.

(** X18. On a canvas of non-zero width whose context is in [source-over],
    the effect draws exactly the strokes of two or more points, in order: a
    pen stroke with width 3 under [source-over], an eraser stroke with width
    20 under [destination-out]; and it leaves the context in [source-over].
    A stroke of one point (a click) is never drawn. Without a canvas, or with
    a width of zero, nothing is drawn. *)
Theorem draw_effect_draws_lines (width : Q) (theme : Theme)
    (strokes : list Stroke) (context : option CompositeOp) :
  ~ (width == 0)%Q ->
  draw_effect true width (Some source_over) theme strokes
  = Some {| composite := source_over;
            drawn := map (stroke_call theme) (List.filter has_line strokes) |}
  /\ draw_effect false width context theme strokes = None
  /\ draw_effect true 0 context theme strokes = None.
Proof.
  intros Hw. split; [|split; reflexivity].
  unfold draw_effect. simpl.
  destruct (Qeq_bool width 0) eqn:E.
  - apply Qeq_bool_eq in E. contradiction.
  - rewrite draw_strokes_from_source_over. reflexivity.
Qed.

Lemma draw_effect_draws_lines_witness :
  draw_effect true 300 (Some source_over) dark
    [ {| points := [(1, 1)]%Q; mode := eraser |} ]
  = Some {| composite := source_over; drawn := [] |}.
Proof.
  refine (proj1 (draw_effect_draws_lines 300 dark
                   [ {| points := [(1, 1)]%Q; mode := eraser |} ] None _)).
  discriminate.
Defined.

End DoodleMoreFacts.

Module ShapeFacts.
Import Rough PathSpec.
Local Open Scope Q_scope.

(** X19. For a width and a height that are not negative, the four
    corners of the tape polygon lie in the viewport of its [svg] element. *)
Theorem tape_polygon_in_viewport (width height : Q) :
  0 <= width -> 0 <= height ->
  Forall (in_viewport width height) (Tape.polygon_points width height).
Proof.
  intros Hw Hh. unfold Tape.polygon_points, in_viewport.
  repeat apply Forall_cons_2; try apply Forall_nil_2;
    cbn [fst snd]; (split; split; lra).
Qed.

Lemma tape_polygon_in_viewport_witness :
  Forall (in_viewport 50 25) (Tape.polygon_points 50 25).
Proof.
  apply tape_polygon_in_viewport; discriminate.
Defined.

Lemma Math_min3_bounds (a b c : Q) :
  SketchyRectangle.Math_min3 a b c <= a
  /\ SketchyRectangle.Math_min3 a b c <= b
  /\ SketchyRectangle.Math_min3 a b c <= c
  /\ (0 <= a -> 0 <= b -> 0 <= c -> 0 <= SketchyRectangle.Math_min3 a b c).
Proof.
  unfold SketchyRectangle.Math_min3.
  pose proof (Q.min_spec a b) as Hab.
  pose proof (Q.min_spec (Qmin a b) c) as Habc.
  set (m := Qmin a b) in *. set (n := Qmin m c) in *.
  destruct Hab as [[H1 E1]|[H1 E1]]; destruct Habc as [[H2 E2]|[H2 E2]];
    (split; [lra|]; split; [lra|]; split; [lra|]); intros; lra.
Qed.

(** X20. When the requested radius is not negative and the stroke is not
    wider than the rectangle is wide or high, every vertex of the
    SketchyRectangle outline lies in the viewport of its [svg] element. *)
Theorem rectangle_outline_in_viewport (width height borderRadius strokeWidth : Q) :
  0 <= borderRadius -> 0 <= strokeWidth ->
  strokeWidth <= width -> strokeWidth <= height ->
  Forall (in_viewport width height)
    (vertices (SketchyRectangle.build_path width height borderRadius strokeWidth)).
Proof.
  intros Hb Hs Hw Hh.
  destruct (Math_min3_bounds borderRadius (width / 2) (height / 2))
    as (_ & R1 & R2 & R0).
  assert (Hw2 : 0 <= width / 2)
    by (unfold Qdiv; change (/ 2) with (1 # 2); lra).
  assert (Hh2 : 0 <= height / 2)
    by (unfold Qdiv; change (/ 2) with (1 # 2); lra).
  assert (R0' := R0 Hb Hw2 Hh2). clear R0.
  unfold SketchyRectangle.build_path, vertices, in_viewport.
  fold (SketchyRectangle.radius width height borderRadius) in R1, R2, R0'.
  change (SketchyRectangle.Math_min3 borderRadius (width / 2) (height / 2))
    with (SketchyRectangle.radius width height borderRadius) in R1, R2, R0'.
  set (r := SketchyRectangle.radius width height borderRadius) in *.
  clearbody r. cbn [omap list_omap endpoint].
  unfold Qdiv in *. change (/ 2) with (1 # 2) in *.
  repeat apply Forall_cons_2; try apply Forall_nil_2;
    cbn [fst snd]; (split; split; lra).
Qed.

Lemma rectangle_outline_in_viewport_witness :
  Forall (in_viewport 100 60)
    (vertices (SketchyRectangle.build_path 100 60 45 2)).
Proof.
  apply rectangle_outline_in_viewport; discriminate.
Defined.

End ShapeFacts.

Module TapedBoxFacts.
Import ThemeContext TapedBox.
Local Open Scope Q_scope.

Example default_corners :
  map tape_corner (tape_children [topLeft; topRight] None) = [topLeft; topRight].
Proof. reflexivity. Qed.

Example corners_in_any_order :
  map tape_corner
    (tape_children [bottomRight; topLeft; bottomRight; topRight] (Some true))
  = [topLeft; topRight; bottomRight].
Proof. reflexivity. Qed.

Lemma includes_In (tapeCorners : list Corner) (corner : Corner) :
  includes tapeCorners corner = true <-> In corner tapeCorners.
Proof.
  unfold includes. rewrite existsb_exists. split.
  - intros (c & Hc & E). destruct corner, c; try discriminate E; exact Hc.
  - intros Hc. exists corner. split; [exact Hc|]. destruct corner; reflexivity.
Qed.

Lemma includes_same (l l' : list Corner) (corner : Corner) :
  (forall c, In c l <-> In c l') -> includes l corner = includes l' corner.
Proof.
  intros H. destruct (includes l corner) eqn:E.
  - symmetry. apply includes_In, H, includes_In, E.
  - destruct (includes l' corner) eqn:E'; [|reflexivity].
    apply includes_In, H, includes_In in E'. congruence.
Qed.

(** X21. The box renders one tape for each corner that occurs in
    [tapeCorners], each corner at most once, in the fixed order top-left,
    top-right, bottom-left, bottom-right: repeating a corner or reordering
    the list changes nothing. Every tape is 50 wide and 25 high, is given the
    [isBouncy] of the box, and is turned by -15 degrees at the top-left and
    bottom-right corners and by 15 degrees at the other two. *)
Theorem tapes_follow_corner_set (tapeCorners tapeCorners' : list Corner)
    (isBouncy : option bool) :
  (forall corner,
     In corner (map tape_corner (tape_children tapeCorners isBouncy))
     <-> In corner tapeCorners)
  /\ NoDup (map tape_corner (tape_children tapeCorners isBouncy))
  /\ (length (tape_children tapeCorners isBouncy) <= 4)%nat
  /\ Forall (fun t => t = tape_at (tape_corner t) isBouncy)
       (tape_children tapeCorners isBouncy)
  /\ ((forall corner, In corner tapeCorners <-> In corner tapeCorners') ->
      tape_children tapeCorners isBouncy = tape_children tapeCorners' isBouncy)
  /\ sublist (map tape_corner (tape_children tapeCorners isBouncy))
       [topLeft; topRight; bottomLeft; bottomRight]
  /\ Forall (fun t =>
               tape_width t = 50 /\ tape_height t = 25
               /\ tape_isBouncy t = isBouncy
               /\ tape_rotation t
                  = match tape_corner t with
                    | topLeft | bottomRight => -15
                    | topRight | bottomLeft => 15
                    end)
       (tape_children tapeCorners isBouncy)
  /\ (tape_children [topLeft; topRight; bottomLeft; bottomRight] isBouncy
      = [ {| tape_corner := topLeft; tape_width := 50; tape_height := 25;
             tape_rotation := -15; tape_isBouncy := isBouncy |};
          {| tape_corner := topRight; tape_width := 50; tape_height := 25;
             tape_rotation := 15; tape_isBouncy := isBouncy |};
          {| tape_corner := bottomLeft; tape_width := 50; tape_height := 25;
             tape_rotation := 15; tape_isBouncy := isBouncy |};
          {| tape_corner := bottomRight; tape_width := 50; tape_height := 25;
             tape_rotation := -15; tape_isBouncy := isBouncy |} ]).
Proof.
  split; [|split; [|split; [|split; [|split; [|split; [|split]]]]]].
  - intros corner. rewrite <- (includes_In tapeCorners corner).
    unfold tape_children.
    destruct (includes tapeCorners topLeft) eqn:E1,
      (includes tapeCorners topRight) eqn:E2,
      (includes tapeCorners bottomLeft) eqn:E3,
      (includes tapeCorners bottomRight) eqn:E4;
      destruct corner; simpl; rewrite ?E1, ?E2, ?E3, ?E4;
      intuition congruence.
  - unfold tape_children.
    destruct (includes tapeCorners topLeft), (includes tapeCorners topRight),
      (includes tapeCorners bottomLeft), (includes tapeCorners bottomRight);
      simpl;
      repeat (apply NoDup_cons_2;
              [rewrite list_elem_of_In; simpl; intuition congruence|]);
      apply NoDup_nil_2.
  - unfold tape_children.
    destruct (includes tapeCorners topLeft), (includes tapeCorners topRight),
      (includes tapeCorners bottomLeft), (includes tapeCorners bottomRight);
      simpl; lia.
  - unfold tape_children.
    destruct (includes tapeCorners topLeft), (includes tapeCorners topRight),
      (includes tapeCorners bottomLeft), (includes tapeCorners bottomRight);
      simpl; repeat constructor.
  - intros H. unfold tape_children.
    rewrite !(includes_same tapeCorners tapeCorners' _ H). reflexivity.
  - unfold tape_children.
    destruct (includes tapeCorners topLeft), (includes tapeCorners topRight),
      (includes tapeCorners bottomLeft), (includes tapeCorners bottomRight);
      cbn [app map tape_at tape_corner];
      repeat first [apply sublist_nil | apply sublist_skip | apply sublist_cons].
  - unfold tape_children.
    destruct (includes tapeCorners topLeft), (includes tapeCorners topRight),
      (includes tapeCorners bottomLeft), (includes tapeCorners bottomRight);
      cbn [app]; repeat (apply Forall_cons_2; [repeat split|]);
      apply Forall_nil_2.
  - reflexivity.
Qed.

Lemma tapes_follow_corner_set_witness :
  tape_children [bottomLeft; topLeft; bottomLeft] None
  = tape_children [topLeft; bottomLeft] None.
Proof.
  refine (proj1 (proj2 (proj2 (proj2 (proj2
            (tapes_follow_corner_set [bottomLeft; topLeft; bottomLeft]
               [topLeft; bottomLeft] None))))) _).
  intros corner. simpl. tauto.
Defined.

End TapedBoxFacts.

Module StickyNoteFacts.
Import Rough PathSpec StickyNote.
Local Open Scope Q_scope.

Example fold_of_top_left :
  foldTrianglePath topLeft 256 256 30
  = Some [ M (2 / 2) (2 / 2 + 30); L (2 / 2 + 30) (2 / 2 + 30);
           L (2 / 2 + 30) (2 / 2) ].
Proof. reflexivity. Qed.

(** X22. The fold size is the [foldSize] prop when one is passed, zero
    included; without it, a draw in [0, 1) gives a size from 25 to 45. *)
Theorem fold_size_range (foldSize : Q) (random : Q) :
  0 <= random < 1 ->
  fold_size_effect (Some foldSize) random = foldSize
  /\ 25 <= fold_size_effect None random <= 45.
Proof.
  intros [H0 H1]. split; [reflexivity|]. unfold fold_size_effect. split; lra.
Qed.

Lemma fold_size_range_witness :
  fold_size_effect (Some 0) (1 # 2) = 0
  /\ 25 <= fold_size_effect None (1 # 2) <= 45.
Proof.
  apply (fold_size_range 0 (1 # 2)). split; discriminate || reflexivity.
Defined.

(** X23. With a folded corner, the fold triangle starts and ends on two
    vertices of the main outline (the ends of the cut), its middle vertex
    makes a right angle with them, and the outline has three arcs; without
    one there is no triangle and the outline has four arcs. *)
Theorem fold_triangle_closes_cut (foldedCorner : FoldedCorner)
    (width height s : Q) :
  match foldTrianglePath foldedCorner width height s with
  | Some triangle =>
      foldedCorner <> none
      /\ (exists a m b : Q * Q,
            vertices triangle = [a; m; b]
            /\ In a (vertices (mainPath foldedCorner width height s))
            /\ In b (vertices (mainPath foldedCorner width height s))
            /\ (fst m = fst a /\ snd m = snd b
                \/ snd m = snd a /\ fst m = fst b))
      /\ length (SketchyRectangle.arc_radii
                   (mainPath foldedCorner width height s)) = 3%nat
  | None =>
      foldedCorner = none
      /\ length (SketchyRectangle.arc_radii
                   (mainPath foldedCorner width height s)) = 4%nat
  end.
Proof.
  destruct foldedCorner; cbn [foldTrianglePath mainPath];
    (split; [discriminate || reflexivity|]); try reflexivity;
    (split; [|reflexivity]);
    eexists _, _, _; (split; [reflexivity|]);
    cbn [vertices omap list_omap endpoint In fst snd];
    (split; [tauto|]); (split; [tauto|]); tauto.
Qed.

Example skill_tapes_narrow :
  skill_tapes 256 ["Rocq"; "TS"] (fun _ => 1 # 2) 0
  = [ {| skill_text := "Rocq"; skill_width := inject_Z 4 * 6 + 16;
         skill_height := 18; skill_rotation := (1 # 2) * 6 - 3 |};
      {| skill_text := "TS"; skill_width := inject_Z 2 * 6 + 16;
         skill_height := 18; skill_rotation := (1 # 2) * 6 - 3 |} ].
Proof. reflexivity. Qed.

(** X24. The note renders one tape per skill, in the order of the skills
    and with the skill as text; for draws in [0, 1) each tape is turned by
    between -3 and 3 degrees. *)
Theorem skill_tapes_one_per_skill (width : Q) (skills : list string)
    (random : Random) (k : nat) :
  (forall n, 0 <= random n < 1) ->
  map skill_text (skill_tapes width skills random k) = skills
  /\ Forall (fun t => -3 <= skill_rotation t <= 3)
       (skill_tapes width skills random k).
Proof.
  intros Hr. revert k. induction skills as [|skill rest IH]; intros k.
  - split; [reflexivity|constructor].
  - destruct (IH (S k)) as [IH1 IH2]. split.
    + cbn [skill_tapes map]. rewrite IH1. reflexivity.
    + cbn [skill_tapes]. apply Forall_cons_2; [|exact IH2].
      unfold skill_tape. cbn [skill_rotation].
      destruct (Hr k). split; lra.
Qed.

Lemma skill_tapes_one_per_skill_witness :
  map skill_text (skill_tapes 320 ["a"; "bc"] (fun _ => 0) 0) = ["a"; "bc"]
  /\ Forall (fun t => -3 <= skill_rotation t <= 3)
       (skill_tapes 320 ["a"; "bc"] (fun _ => 0) 0).
Proof.
  apply skill_tapes_one_per_skill.
  intros _. split; discriminate || reflexivity.
Defined.

End StickyNoteFacts.

Module RandomPickFacts.
Local Open Scope Q_scope.

(** The floor of a draw in [0, 1) scaled by a positive integer [n] is an
    index below [n]. *)
Lemma floor_of_scaled_draw (random : Q) (n : Z) :
  0 <= random < 1 -> (0 < n)%Z ->
  (0 <= Qfloor (random * inject_Z n) < n)%Z.
Proof.
  intros [H0 H1] Hn.
  assert (Hq : 0 < inject_Z n)
    by (change (inject_Z 0 < inject_Z n); rewrite <- Zlt_Qlt; exact Hn).
  split.
  - change 0%Z with (Qfloor (inject_Z 0)) at 1.
    apply Qfloor_resp_le. change (inject_Z 0) with 0. nra.
  - pose proof (Qfloor_le (random * inject_Z n)) as Hf.
    rewrite Zlt_Qlt. nra.
Qed.

Example palette_first : StickyTape.initial_tapeColor None 0
                        = Some "rgba(255, 218, 185, 0.8)".
Proof. reflexivity. Qed.

Example palette_last : StickyTape.initial_tapeColor (Some "") (99 # 100)
                       = Some "rgba(255, 182, 193, 0.8)".
Proof. reflexivity. Qed.

(** X25. For a draw in [0, 1) the tape always gets a colour: the [color]
    prop when it is a non-empty string, and otherwise (no prop, or the empty
    string) one of the six palette entries; the index never leaves the
    palette. *)
Theorem tape_color_is_defined (color : option string) (random : Q) :
  0 <= random < 1 ->
  exists c : string,
    StickyTape.initial_tapeColor color random = Some c
    /\ c <> ""
    /\ match color with
       | Some given => given <> "" -> c = given
       | None => True
       end
    /\ ((color = None \/ color = Some "") -> In c StickyTape.tapeColors).
Proof.
  intros Hr.
  pose proof (floor_of_scaled_draw random 6 Hr ltac:(lia)) as Hi.
  assert (P : exists c, StickyTape.array_get StickyTape.tapeColors
                          (Qfloor (random * inject_Z 6)) = Some c
                        /\ c <> "" /\ In c StickyTape.tapeColors).
  { set (i := Qfloor (random * inject_Z 6)) in *.
    assert (Hc : (i = 0 \/ i = 1 \/ i = 2 \/ i = 3 \/ i = 4 \/ i = 5)%Z)
      by lia.
    destruct Hc as [-> | [-> | [-> | [-> | [-> | ->] ] ] ] ];
      (eexists; split; [reflexivity|]; split; [discriminate|]);
      simpl; tauto. }
  destruct P as (c & Hc & Hne & Hin).
  unfold StickyTape.initial_tapeColor.
  change (inject_Z (Z.of_nat (length StickyTape.tapeColors))) with (inject_Z 6).
  destruct color as [given|].
  - destruct (String.eqb_spec given "") as [->|Hg].
    + exists c. rewrite Hc. split; [reflexivity|]. split; [exact Hne|].
      split; [intros H; contradiction|intros _; exact Hin].
    + exists given. split; [reflexivity|]. split; [exact Hg|].
      split; [reflexivity|]. intros [H|H]; [discriminate H|].
      injection H as ->. contradiction.
  - exists c. rewrite Hc. split; [reflexivity|]. split; [exact Hne|].
    split; [exact I|intros _; exact Hin].
Qed.

Lemma tape_color_is_defined_witness :
  exists c : string,
    StickyTape.initial_tapeColor None (1 # 2) = Some c
    /\ c <> ""
    /\ True
    /\ ((@None string = None \/ @None string = Some "")
        -> In c StickyTape.tapeColors).
Proof.
  apply (tape_color_is_defined None (1 # 2)).
  split; discriminate || reflexivity.
Defined.

(** X26. Before the icon is mounted its effect draws nothing and starts
    no interval; once mounted, with the pattern in place and a draw in
    [0, 1), it draws the fill with a whole hachure angle from 0 to 89
    degrees, and the 200 ms interval runs exactly when [isBouncy]. *)
Theorem social_icon_hachure_angle (bgColor : string) (isBouncy : bool)
    (patternRef ownerSVGElement : bool) (random : Q) :
  0 <= random < 1 ->
  SketchySocialIcon.effect false patternRef ownerSVGElement bgColor isBouncy
    random = (None, None)
  /\ exists rect,
       SketchySocialIcon.effect true true true bgColor isBouncy random
       = (Some rect, if isBouncy then Some 200%Z else None)
       /\ SketchySocialIcon.fill rect = bgColor
       /\ (0 <= SketchySocialIcon.hachureAngle rect <= 89)%Z.
Proof.
  intros Hr. split; [reflexivity|].
  eexists. split; [reflexivity|]. split; [reflexivity|].
  cbn [SketchySocialIcon.hachureAngle].
  pose proof (floor_of_scaled_draw random 90 Hr ltac:(lia)) as Hi.
  change (inject_Z 90) with 90 in Hi. lia.
Qed.

Lemma social_icon_hachure_angle_witness :
  exists rect,
    SketchySocialIcon.effect true true true "#1da1f2" true (2 # 3)
    = (Some rect, Some 200%Z)
    /\ SketchySocialIcon.fill rect = "#1da1f2"
    /\ (0 <= SketchySocialIcon.hachureAngle rect <= 89)%Z.
Proof.
  refine (proj2 (social_icon_hachure_angle "#1da1f2" true true true (2 # 3) _)).
  split; discriminate || reflexivity.
Defined.

End RandomPickFacts.

Module JourneyLineMoreFacts.
Import Rough Float64 JourneyLine.
Local Open Scope Q_scope.

Example second_segment_swings_right :
  segment (fun _ => 1 # 4) 2 {| x := 400; y := 100 |} {| x := 0; y := 300 |} 3
  = C 500 150 (-100) 250 0 300.
Proof. vm_compute. reflexivity. Qed.

Lemma direction_odd (i : nat) : Nat.Odd i -> direction i = -1.
Proof.
  intros Hodd. unfold direction.
  destruct (Nat.eqb_spec (i mod 2) 0) as [E|_]; [|reflexivity].
  exfalso. apply Nat.Div0.mod_divides in E. destruct E as [c E].
  destruct Hodd as [d Hd]. lia.
Qed.

Lemma direction_even (i : nat) : Nat.Even i -> direction i = 1.
Proof.
  intros [d ->]. unfold direction.
  rewrite Nat.mul_comm, Nat.Div0.mod_mul. reflexivity.
Qed.

Ltac fl_interval H :=
  apply Float64Facts.fl_between in H;
  let a := fresh "a" in
  let b := fresh "b" in
  match type of H with
  | fl ?lo <= _ <= fl ?hi =>
      let vlo := eval vm_compute in (fl lo) in
      let vhi := eval vm_compute in (fl hi) in
      change (fl lo) with vlo in H; change (fl hi) with vhi in H
  end.

(** The rounded [Math.random() * 200 + 150]. *)
Lemma swing_magnitude (r : Q) :
  0 <= r < 1 -> 150 <= fadd (fmul r 200) 150 <= 350.
Proof.
  intros [H0 H1]. unfold fadd, fmul.
  assert (B : 0 <= r * 200 <= 200) by (split; lra).
  fl_interval B. set (m := fl (r * 200)) in *.
  assert (B' : 150 <= m + 150 <= 350) by (split; lra).
  fl_interval B'. exact B'.
Qed.

(** X28. For draws in [0, 1), the two control points of a segment are
    moved from the quarter and three-quarter points, in the arithmetic of
    doubles, by one vertical offset, added at the first and subtracted at the
    second, and by horizontal offsets added at the first and subtracted at
    the second. The vertical offset is 50 to 150 on the first segment and at
    most 100 either way on the later ones; the horizontal offsets are 150 to
    350 to the left for an odd index and to the right for an even one. *)
Theorem control_points_are_bounded (random : Random) (i : nat)
    (start end_ : Point) (k : nat) :
  (forall n, 0 <= random n < 1) ->
  let dx := fsub (x end_) (x start) in
  let dy := fsub (y end_) (y start) in
  let v := verticalRandomness random i k in
  let s1 := swing random i (k + 1) in
  let s2 := swing random i (k + 2) in
  segment random i start end_ k
  = C (fadd (fadd (x start) (fmul dx (1 # 4))) s1)
      (fadd (fadd (y start) (fmul dy (1 # 2))) v)
      (fsub (fsub (x end_) (fmul dx (1 # 4))) s2)
      (fsub (fsub (y end_) (fmul dy (1 # 2))) v)
      (x end_) (y end_)
  /\ (i = 1%nat -> 50 <= v <= 150)
  /\ (i <> 1%nat -> -100 <= v <= 100)
  /\ (Nat.Odd i -> (-350 <= s1 <= -150) /\ (-350 <= s2 <= -150))
  /\ (Nat.Even i -> (150 <= s1 <= 350) /\ (150 <= s2 <= 350)).
Proof.
  intros Hr dx dy v s1 s2. subst dx dy v s1 s2.
  split; [reflexivity|].
  pose proof (Hr k) as [H0 H1].
  split; [|split; [|split]].
  - intros ->. unfold verticalRandomness, fadd, fmul. cbn [Nat.eqb].
    assert (B : 0 <= random k * 100 <= 100) by (split; lra).
    fl_interval B. set (m := fl (random k * 100)) in *.
    assert (B' : 50 <= m + 50 <= 150) by (split; lra).
    fl_interval B'. exact B'.
  - intros Hi. unfold verticalRandomness, fsub, fmul.
    destruct (Nat.eqb_spec i 1) as [E|_]; [contradiction|].
    assert (B : - (1 # 2) <= random k - (1 # 2) <= 1 # 2) by (split; lra).
    fl_interval B. set (m := fl (random k - (1 # 2))) in *.
    assert (B' : -100 <= m * 200 <= 100) by (split; lra).
    fl_interval B'. exact B'.
  - intros Hodd. unfold swing. rewrite (direction_odd i Hodd).
    pose proof (swing_magnitude _ (Hr (k + 1)%nat)) as S1.
    pose proof (swing_magnitude _ (Hr (k + 2)%nat)) as S2.
    set (m1 := fadd (fmul (random (k + 1)%nat) 200) 150) in *.
    set (m2 := fadd (fmul (random (k + 2)%nat) 200) 150) in *.
    unfold fmul.
    assert (B1 : -350 <= -1 * m1 <= -150) by (split; lra).
    assert (B2 : -350 <= -1 * m2 <= -150) by (split; lra).
    fl_interval B1. fl_interval B2. split; assumption.
  - intros Heven. unfold swing. rewrite (direction_even i Heven).
    pose proof (swing_magnitude _ (Hr (k + 1)%nat)) as S1.
    pose proof (swing_magnitude _ (Hr (k + 2)%nat)) as S2.
    set (m1 := fadd (fmul (random (k + 1)%nat) 200) 150) in *.
    set (m2 := fadd (fmul (random (k + 2)%nat) 200) 150) in *.
    unfold fmul.
    assert (B1 : 150 <= 1 * m1 <= 350) by (split; lra).
    assert (B2 : 150 <= 1 * m2 <= 350) by (split; lra).
    fl_interval B1. fl_interval B2. split; assumption.
Qed.

Lemma control_points_are_bounded_witness :
  50 <= verticalRandomness (fun _ => 1 # 4) 1 0 <= 150
  /\ (-350 <= swing (fun _ => 1 # 4) 1 1 <= -150)
  /\ (150 <= swing (fun _ => 1 # 4) 2 4 <= 350).
Proof.
  assert (Hr : forall n : nat, 0 <= (fun _ : nat => 1 # 4) n < 1)
    by (intros _; split; discriminate || reflexivity).
  pose proof (control_points_are_bounded (fun _ => 1 # 4) 1
                {| x := 0; y := 0 |} {| x := 400; y := 100 |} 0 Hr) as H1.
  pose proof (control_points_are_bounded (fun _ => 1 # 4) 2
                {| x := 400; y := 100 |} {| x := 0; y := 300 |} 3 Hr) as H2.
  split; [exact (proj1 (proj2 H1) eq_refl)|]. split.
  - refine (proj1 (proj1 (proj2 (proj2 (proj2 H1))) _)). exists 0%nat. reflexivity.
  - refine (proj1 (proj2 (proj2 (proj2 (proj2 H2))) _)). exists 1%nat. reflexivity.
Defined.

End JourneyLineMoreFacts.

Module TapedBoxRectangleFacts.
Import ThemeContext TapedBox.
Local Open Scope Q_scope.

(** X29. The box renders its rectangle only for a measured size that is
    positive in both directions, and passes that size on. The rectangle then
    has square corners when the box has no [borderRadius], and for a
    [borderRadius] that is not negative a radius between 0 and it. *)
Theorem box_rectangle_radius (size_width size_height : Q)
    (isBouncy : option bool) (borderRadius : option Q) (theme : Theme) :
  match rectangle_child size_width size_height isBouncy borderRadius theme with
  | Some child =>
      0 < size_width /\ 0 < size_height
      /\ rect_width child = size_width /\ rect_height child = size_height
      /\ match borderRadius with
         | None => child_radius child == 0
         | Some br => 0 <= br -> 0 <= child_radius child <= br
         end
  | None => size_width <= 0 \/ size_height <= 0
  end.
Proof.
  unfold rectangle_child.
  destruct (Qlt_le_dec 0 size_width) as [Hw|Hw]; [|left; exact Hw].
  destruct (Qlt_le_dec 0 size_height) as [Hh|Hh]; [|right; exact Hh].
  split; [exact Hw|]. split; [exact Hh|]. split; [reflexivity|].
  split; [reflexivity|].
  unfold child_radius, SketchyRectangle.radius. cbn [rect_width rect_height
    rect_borderRadius].
  assert (Hw2 : 0 < size_width / 2)
    by (unfold Qdiv; change (/ 2) with (1 # 2); lra).
  assert (Hh2 : 0 < size_height / 2)
    by (unfold Qdiv; change (/ 2) with (1 # 2); lra).
  destruct borderRadius as [br|]; cbn [default from_option id].
  - intros Hb.
    destruct (ShapeFacts.Math_min3_bounds br (size_width / 2) (size_height / 2))
      as (B1 & _ & _ & B0).
    split; [apply B0; lra|exact B1].
  - destruct (SketchyRectangleFacts.Math_min3_least 0 (size_width / 2)
                (size_height / 2)) as (B1 & B2 & B3 & [E|[E|E]]); lra.
Qed.

Lemma box_rectangle_radius_witness :
  exists child,
    rectangle_child 300 240 (Some true) (Some 20) light = Some child
    /\ 0 <= child_radius child <= 20.
Proof.
  pose proof (box_rectangle_radius 300 240 (Some true) (Some 20) light) as H.
  destruct (rectangle_child 300 240 (Some true) (Some 20) light) as [child|].
  - exists child. split; [reflexivity|].
    apply (proj2 (proj2 (proj2 (proj2 H)))). discriminate.
  - exfalso. destruct H as [H|H]; apply H; reflexivity.
Defined.

End TapedBoxRectangleFacts.
